(** * Watch Your Back! player: moving strategies and the Player turn handler

    A shallow embedding of [moving_strategy.py] and [player.py].

    The two modules manipulate [BoardState] objects through their methods and
    build [Move] and [Action] objects; those classes, [generate_moves],
    [do_random_place] and the [random] module live outside the two files.
    They are collected in the interface [Collaborators]; the code of the two
    modules is written once over that interface.  Board objects are mutable
    and passed by reference, so they live in a heap of board contents and the
    code runs in a state monad over that heap that can also raise.

    The collaborators are taken to return normally; the one failure the two
    modules handle is the [InvalidMoveError] of the [Move] constructor.
    [do_alphabeta_action] only forwards to [alphabeta_cutoff_search] of the
    [minimax] module, which is not among the sources, and is left out. *)

From stdpp Require Import base option list gmap strings.
From Stdlib Require Import ZArith Lia.

Open Scope string_scope.
Open Scope list_scope.
Open Scope Z_scope.

(** ** Collaborators of the two modules *)

Class Collaborators := {
  (** contents of one [BoardState] object *)
  Board : Type;
  (** a validated [Move] object *)
  Move : Type;
  (** an [Action] object *)
  Action : Type;
  (** what the referee exchanges with the player: a placement or a movement tuple *)
  Reply : Type;
  (** state of the [random] module *)
  Gen : Type;
  (** [BoardState()]: the board at the start of a game *)
  BoardState_new : Board;
  (** [board.output_piece(col, row)] *)
  output_piece : Board → Z → Z → string;
  (** [board.modify(action, enemy)], [action] may be [None] *)
  modify : Board → option Action → string → Board;
  (** [board.shrink_board()] *)
  shrink_board : Board → Board;
  (** [board.search_board(colour)] *)
  search_board : Board → string → list (Z * Z);
  (** [Move(board, col, row, new_col, new_row)]; [None] stands for [InvalidMoveError] *)
  Move_new : Board → Z → Z → Z → Z → option Move;
  (** [Action(board, enemy, action=..., move=...)] *)
  Action_new : Board → string → option Reply → option Move → Action;
  (** [action.return_action()] *)
  return_action : Action → Reply;
  (** [generate_moves(board, colour)] *)
  generate_moves : Board → string → list Move;
  (** [do_random_place(board, enemy)] of [placing_strategy] *)
  do_random_place : Board → string → Gen → option Action * Gen;
  (** [random.randint(lo, hi)] *)
  randint : Z → Z → Gen → Z * Gen
}.

(** ** The table of [find_tiles_of_rank] *)

Definition tile_dict : gmap Z (list (Z * Z)) :=
  list_to_map [
    (0, [ (0, 1); (0, 2); (0, 3); (0, 4); (0, 5); (0, 6);
          (1, 0); (2, 0); (3, 0); (4, 0); (5, 0); (6, 0);
          (1, 7); (2, 7); (3, 7); (4, 7); (5, 7); (6, 7);
          (7, 1); (7, 2); (7, 3); (7, 4); (7, 5); (7, 6) ]);
    (1, [ (1, 1); (1, 2); (1, 3); (1, 4); (1, 5); (1, 6);
          (2, 1); (3, 1); (4, 1); (5, 1);
          (2, 6); (3, 6); (4, 6); (5, 6);
          (6, 1); (6, 2); (6, 3); (6, 4); (6, 5); (6, 6) ]);
    (2, [ (2, 2); (2, 3); (2, 4); (2, 5);
          (3, 2); (4, 2);
          (3, 5); (4, 5);
          (5, 2); (5, 3); (5, 4); (5, 5) ]);
    (3, [ (3, 3); (3, 4);
          (4, 3); (4, 4) ])
  ].

(** [tile_dict[rank]]; [None] is the [KeyError] of a rank outside the table. *)
Definition find_tiles_of_rank (rank : Z) : option (list (Z * Z)) :=
  tile_dict !! rank.

Definition in_grid (t : Z * Z) : Prop := 0 ≤ t.1 ≤ 7 ∧ 0 ≤ t.2 ≤ 7.

Definition corner_cells : list (Z * Z) := [ (0, 0); (0, 7); (7, 0); (7, 7) ].

Definition tile_ok (t : Z * Z) : bool :=
  bool_decide (0 ≤ t.1) && bool_decide (t.1 ≤ 7) &&
  bool_decide (0 ≤ t.2) && bool_decide (t.2 ≤ 7) &&
  bool_decide (t ∉ corner_cells).

Definition disjointb (l1 l2 : list (Z * Z)) : bool :=
  forallb (λ t, bool_decide (t ∉ l2)) l1.


(** ** The heap of board objects and the monad the code runs in *)

Section Code.
Context `{Collaborators}.

(** A [BoardState] object is a reference into [heap].  [gen] is the state of
    the [random] module.  [shrunk] is a ghost log: the reference on which
    [shrink_board] was invoked, one entry per invocation, oldest first. *)
Record World := World_mk {
  heap : list Board;
  gen : Gen;
  shrunk : list nat
}.

(** A computation reads and writes the world; [None] is an uncaught exception. *)
Definition M (A : Type) : Type := World → option (A * World).

Global Instance M_ret : MRet M := λ A a w, Some (a, w).

Global Instance M_bind : MBind M := λ A B f m w,
  match m w with
  | Some (a, w') => f a w'
  | None => None
  end.

Definition raise {A : Type} : M A := λ _, None.

Definition load (r : nat) : M Board := λ w,
  match heap w !! r with
  | Some b => Some (b, w)
  | None => None
  end.

Definition store (r : nat) (b : Board) : M () := λ w,
  if decide (r < length (heap w))%nat
  then Some ((), World_mk (<[r:=b]> (heap w)) (gen w) (shrunk w))
  else None.

Definition alloc (b : Board) : M nat := λ w,
  Some (length (heap w), World_mk (heap w ++ [b]) (gen w) (shrunk w)).

Definition log_shrink (r : nat) : M () := λ w,
  Some ((), World_mk (heap w) (gen w) (shrunk w ++ [r])).

(** [BoardState()] *)
Definition BoardState_empty : M nat := alloc BoardState_new.

(** Modelled from the spec: [BoardState(None, other)], the copying constructor
    of [BoardState], is not among the sources.  The spec has board copies
    private and disposable: the call builds a new object with the contents of
    [other] that shares no storage with it. *)
Definition BoardState_copy (other : nat) : M nat :=
  b ← load other; alloc b.

Definition board_modify (r : nat) (a : option Action) (enemy : string) : M () :=
  b ← load r; store r (modify b a enemy).

Definition board_shrink_board (r : nat) : M () :=
  b ← load r; store r (shrink_board b);; log_shrink r.

Definition board_search_board (r : nat) (colour : string) : M (list (Z * Z)) :=
  b ← load r; mret (search_board b colour).

Definition board_output_piece (r : nat) (col row : Z) : M string :=
  b ← load r; mret (output_piece b col row).

Definition make_Move (r : nat) (col row new_col new_row : Z) : M (option Move) :=
  b ← load r; mret (Move_new b col row new_col new_row).

Definition make_Action (r : nat) (enemy : string)
    (action : option Reply) (move : option Move) : M Action :=
  b ← load r; mret (Action_new b enemy action move).

Definition call_generate_moves (r : nat) (colour : string) : M (list Move) :=
  b ← load r; mret (generate_moves b colour).

Definition call_do_random_place (r : nat) (enemy : string) : M (option Action) := λ w,
  match heap w !! r with
  | Some b =>
      let '(a, g) := do_random_place b enemy (gen w) in
      Some (a, World_mk (heap w) g (shrunk w))
  | None => None
  end.

(** [random.randint(lo, hi)]; it raises [ValueError] on an empty range. *)
Definition call_randint (lo hi : Z) : M Z := λ w,
  if decide (lo ≤ hi)
  then let '(z, g) := randint lo hi (gen w) in
       Some (z, World_mk (heap w) g (shrunk w))
  else None.

(** [l[i]] of a Python list: negative indices count from the end, an index
    out of range raises [IndexError]. *)
Definition py_index {A : Type} (l : list A) (i : Z) : M A :=
  let j := if i <? 0 then Z.of_nat (length l) + i else i in
  if j <? 0 then raise
  else match l !! Z.to_nat j with
       | Some x => mret x
       | None => raise
       end.

(** ** moving_strategy.py *)

Definition do_random_move (board_state : nat) (enemy : string) : M (option Action) :=
  poss_moves ← (if String.eqb enemy "@"
                then call_generate_moves board_state "W"
                else call_generate_moves board_state "B");
  if negb (Nat.eqb (length poss_moves) 0) then
    i ← call_randint 0 (Z.of_nat (length poss_moves) - 1);
    move ← py_index poss_moves i;
    action ← make_Action board_state enemy None (Some move);
    mret (Some action)
  else
    mret None.

Definition move_towards_centre (board_state : nat) (col row : Z) (enemy : string)
    : M (option (Z * Z)) :=
  let new_row := row in
  let new_col := col in
  let new_col := if col >? 5 then col - 1
                 else if col <? 3 then col + 1
                 else new_col in
  if negb (new_col =? col) then
    m ← make_Move board_state col row new_col new_row;
    match m with
    | None => mret None
    | Some _ => mret (Some (new_col, new_row))
    end
  else
    let new_row := if row >? 5 then row - 1
                   else if row <? 3 then row + 1
                   else new_row in
    if negb (new_row =? row) then
      m ← make_Move board_state col row new_col new_row;
      match m with
      | None => mret None
      | Some _ => mret (Some (new_col, new_row))
      end
    else
      mret None.

(** The inner loop of [move_to_centre_algorithm]: [for y in r] with [r] the
    indices of [tile_list] in order, that is the tiles themselves in order.
    [Some move] is the [return move] that leaves both loops.  The [Move] built
    for the result is built outside any [try], so an [InvalidMoveError] there
    is raised. *)
Fixpoint scan_tiles (board_state : nat) (enemy player : string)
    (tile_list : list (Z * Z)) : M (option Move) :=
  match tile_list with
  | [] => mret None
  | t :: rest =>
      p ← board_output_piece board_state t.1 t.2;
      if String.eqb p player then
        destination ← move_towards_centre board_state t.1 t.2 enemy;
        match destination with
        | Some d =>
            m ← make_Move board_state t.1 t.2 d.1 d.2;
            match m with
            | Some move => mret (Some move)
            | None => raise
            end
        | None => scan_tiles board_state enemy player rest
        end
      else scan_tiles board_state enemy player rest
  end.

(** The outer loop, [for x in ranks]. *)
Fixpoint scan_ranks (board_state : nat) (enemy player : string)
    (ranks : list Z) : M (option Move) :=
  match ranks with
  | [] => mret None
  | x :: rest =>
      match find_tiles_of_rank x with
      | None => raise
      | Some tile_list =>
          found ← scan_tiles board_state enemy player tile_list;
          match found with
          | Some move => mret (Some move)
          | None => scan_ranks board_state enemy player rest
          end
      end
  end.

(** [range(n)] *)
Definition range (n : nat) : list Z := Z.of_nat <$> seq 0 n.

(** Falling off the end of the function returns [None]. *)
Definition move_to_centre_algorithm (board_state : nat) (enemy player : string)
    (possmoves : list Move) : M (option Move) :=
  scan_ranks board_state enemy player (range 3).

Definition check_move_for_elimination (board_state : nat) (enemy player : string)
    (move : Move) : M bool :=
  temp_board_state ← BoardState_copy board_state;
  action ← make_Action board_state enemy None (Some move);
  board_modify temp_board_state (Some action) enemy;;
  let enemy := if String.eqb enemy "O" then "W" else enemy in
  after ← board_search_board temp_board_state enemy;
  before ← board_search_board board_state enemy;
  if Nat.eqb (length after) (length before) then mret false else mret true.

(** The [for move in poss_moves] loop of [check_easy_elimination]: the first
    move that passes the test is appended and the loop is left. *)
Fixpoint first_elimination (board_state : nat) (enemy player : string)
    (poss_moves : list Move) : M (option Move) :=
  match poss_moves with
  | [] => mret None
  | move :: rest =>
      c ← check_move_for_elimination board_state enemy player move;
      if (c : bool) then mret (Some move)
      else first_elimination board_state enemy player rest
  end.

(** The entries of [move_list] are moves or [None]. *)
Definition check_easy_elimination (board_state : nat) (enemy player : string)
    : M (list (option Move)) :=
  let move_list := [] in
  poss_moves ← (if String.eqb enemy "@"
                then call_generate_moves board_state "W"
                else call_generate_moves board_state "B");
  if negb (Nat.eqb (length poss_moves) 0) then
    found ← first_elimination board_state enemy player poss_moves;
    let move_list := match found with
                     | Some move => move_list ++ [Some move]
                     | None => move_list
                     end in
    centre ← move_to_centre_algorithm board_state enemy player poss_moves;
    let move_list := move_list ++ [centre] in
    i ← call_randint 0 (Z.of_nat (length poss_moves) - 1);
    move ← py_index poss_moves i;
    let move_list := move_list ++ [Some move] in
    mret move_list
  else
    mret move_list.

Definition evalutate_this_move (board_state : nat) (enemy player : string)
    (move : Move) : M Z :=
  temp_board_state ← BoardState_copy board_state;
  action ← make_Action board_state enemy None (Some move);
  board_modify temp_board_state (Some action) enemy;;
  let enemy := if String.eqb enemy "O" then "W" else enemy in
  mine ← board_search_board temp_board_state player;
  theirs ← board_search_board board_state enemy;
  mret (Z.of_nat (length mine) - Z.of_nat (length theirs)).

Definition generate_move (board_state : nat) (enemy : string) : M (list Move) :=
  if String.eqb enemy "@"
  then call_generate_moves board_state "W"
  else call_generate_moves board_state "B".

(** ** player.py *)

Record Player := Player_mk {
  enemy : string;
  piece : string;
  board : nat;
  total_actions : Z;
  total_turns : Z;
  phase : string
}.

Definition TOTAL_PIECES : Z := 12.

Definition set_total_actions (self : Player) (n : Z) : Player :=
  Player_mk (enemy self) (piece self) (board self) n (total_turns self) (phase self).

Definition set_total_turns (self : Player) (n : Z) : Player :=
  Player_mk (enemy self) (piece self) (board self) (total_actions self) n (phase self).

Definition set_phase (self : Player) (p : string) : Player :=
  Player_mk (enemy self) (piece self) (board self) (total_actions self) (total_turns self) p.

(** [Player.__init__] *)
Definition Player_init (colour : string) : M Player :=
  let '(e, p) := if String.eqb colour "white" then ("@", "O") else ("O", "@") in
  b ← BoardState_empty;
  mret (Player_mk e p b 0 0 "placing").

(** The shrink test shared by [action] and [update]. *)
Definition check_shrink (self : Player) : M () :=
  if String.eqb (phase self) "moving" then
    if total_turns self =? 127 then board_shrink_board (board self)
    else if total_turns self =? 191 then board_shrink_board (board self)
    else mret ()
  else mret ().

(** The counters and the phase switch of [Player.action]. *)
Definition bookkeeping (self : Player) (turns : Z) : Player :=
  let self := set_total_actions self (total_actions self + 1) in
  let self := set_total_turns self turns in
  if String.eqb (phase self) "placing" then
    if total_actions self =? 12
    then set_total_turns (set_phase self "moving") 0
    else self
  else self.

(** [Player.action]: the updated object and the value handed to the referee. *)
Definition action (self : Player) (turns : Z) : M (Player * option Reply) :=
  act ← (if String.eqb (phase self) "placing" then
           a ← call_do_random_place (board self) (enemy self);
           board_modify (board self) a (enemy self);;
           mret a
         else
           a ← do_random_move (board self) (enemy self);
           board_modify (board self) a (enemy self);;
           mret a);
  let self := bookkeeping self turns in
  check_shrink self;;
  match act with
  | None => mret (self, None)
  | Some a => mret (self, Some (return_action a))
  end.

(** [Player.update]; the referee passes [None] for a forfeited turn. *)
Definition update (self : Player) (act : option Reply) : M Player :=
  let self := set_total_turns self (total_turns self + 1) in
  a ← make_Action (board self) (piece self) act None;
  board_modify (board self) (Some a) (piece self);;
  check_shrink self;;
  mret self.

(** *** Sequences of calls by the referee *)

Inductive Call :=
  | CallAction (turns : Z)
  | CallUpdate (act : option Reply).

Definition step (self : Player) (c : Call) : M Player :=
  match c with
  | CallAction turns => r ← action self turns; mret r.1
  | CallUpdate act => update self act
  end.

(** The player object after each call of the sequence. *)
Fixpoint history (self : Player) (calls : list Call) : M (list Player) :=
  match calls with
  | [] => mret []
  | c :: rest =>
      self' ← step self c;
      later ← history self' rest;
      mret (self' :: later)
  end.

(** A game from the construction of the player on: the player object as
    constructed and after each call. *)
Definition game (colour : string) (calls : list Call) : M (list Player) :=
  self ← Player_init colour;
  later ← history self calls;
  mret (self :: later).

End Code.

(** ** What the code computes, on board contents *)

Section Views.
Context `{Collaborators}.

(** The colour name under which the two simulations look the opponent up. *)
Definition search_key (enemy : string) : string :=
  if String.eqb enemy "O" then "W" else enemy.

(** The colour whose moves [do_random_move] and [check_easy_elimination] generate. *)
Definition acting_colour (enemy : string) : string :=
  if String.eqb enemy "@" then "W" else "B".

(** Contents of the board on which [move] has been applied against [enemy]. *)
Definition simulated (b : Board) (enemy : string) (move : Move) : Board :=
  modify b (Some (Action_new b enemy None (Some move))) enemy.

Definition count (b : Board) (colour : string) : nat :=
  length (search_board b colour).

(** The world in which a simulation ends: one more board, the simulated one. *)
Definition after_simulation (w : World) (b : Board) (enemy : string) (move : Move) : World :=
  World_mk (heap w ++ [simulated b enemy move]) (gen w) (shrunk w).

(** The test of [check_move_for_elimination], on board contents. *)
Definition eliminates (b : Board) (enemy : string) (move : Move) : bool :=
  negb (Nat.eqb (count (simulated b enemy move) (search_key enemy))
                (count b (search_key enemy))).

(** The destination [move_towards_centre] proposes for a piece, before the
    move is validated. *)
Definition centre_step (col row : Z) : option (Z * Z) :=
  if col >? 5 then Some (col - 1, row)
  else if col <? 3 then Some (col + 1, row)
  else if row >? 5 then Some (col, row - 1)
  else if row <? 3 then Some (col, row + 1)
  else None.

(** The cells [move_to_centre_algorithm] visits, in the order it visits them. *)
Definition scan_order : list (Z * Z) :=
  x ← range 3; default [] (find_tiles_of_rank x).

(** Four times the squared distance of a cell from the centre of the board,
    the point (3.5, 3.5). *)
Definition dist2 (p : Z * Z) : Z :=
  (2 * p.1 - 7) * (2 * p.1 - 7) + (2 * p.2 - 7) * (2 * p.2 - 7).

(** The move [move_to_centre_algorithm] builds for a piece on [t], if any. *)
Definition offer (b : Board) (t : Z * Z) : option Move :=
  match centre_step t.1 t.2 with
  | Some d => Move_new b t.1 t.2 d.1 d.2
  | None => None
  end.

(** The first move offered along a list of cells to a piece of [player]. *)
Fixpoint first_offer (b : Board) (player : string) (tiles : list (Z * Z))
    : option Move :=
  match tiles with
  | [] => None
  | t :: rest =>
      if String.eqb (output_piece b t.1 t.2) player then
        match offer b t with
        | Some m => Some m
        | None => first_offer b player rest
        end
      else first_offer b player rest
  end.

(** A piece on [t] yields no destination: the step proposed for it is invalid,
    or none is proposed. *)
Definition passed_over (b : Board) (t : Z * Z) : Prop :=
  ∀ d, centre_step t.1 t.2 = Some d → Move_new b t.1 t.2 d.1 d.2 = None.

(** *** The centralizing policy as the spec words it

    All four rings are scanned; a piece qualifies when it has a valid one-step
    move that strictly reduces its distance to the centre, the column
    adjustment being tried before the row adjustment. *)

Definition towards (x : Z) : Z := if 2 * x <? 7 then x + 1 else x - 1.

Definition claimed_try (b : Board) (t d : Z * Z) : option Move :=
  if dist2 d <? dist2 t then Move_new b t.1 t.2 d.1 d.2 else None.

Definition claimed_step (b : Board) (t : Z * Z) : option Move :=
  match claimed_try b t (towards t.1, t.2) with
  | Some m => Some m
  | None => claimed_try b t (t.1, towards t.2)
  end.

Fixpoint claimed_scan (b : Board) (player : string) (tiles : list (Z * Z))
    : option Move :=
  match tiles with
  | [] => None
  | t :: rest =>
      if String.eqb (output_piece b t.1 t.2) player then
        match claimed_step b t with
        | Some m => Some m
        | None => claimed_scan b player rest
        end
      else claimed_scan b player rest
  end.

Definition claimed_move_to_centre (b : Board) (player : string) : option Move :=
  claimed_scan b player (x ← range 4; default [] (find_tiles_of_rank x)).

(** *** Observations on a sequence of calls *)

(** The player object a call leaves behind. *)
Definition after_call (self : Player) (c : Call) : Player :=
  match c with
  | CallAction turns => bookkeeping self turns
  | CallUpdate _ => set_total_turns self (total_turns self + 1)
  end.

Fixpoint states (self : Player) (calls : list Call) : list Player :=
  match calls with
  | [] => []
  | c :: rest => after_call self c :: states (after_call self c) rest
  end.

(** The player object [Player.__init__] builds around the board [r]. *)
Definition fresh_player (colour : string) (r : nat) : Player :=
  let '(e, p) := if String.eqb colour "white" then ("@", "O") else ("O", "@") in
  Player_mk e p r 0 0 "placing".

Definition moving (p : Player) : bool := String.eqb (phase p) "moving".

Definition threshold (t : Z) : bool := (t =? 127) || (t =? 191).

(** The call left the player in the moving phase with the counter on a threshold. *)
Definition due (p : Player) : bool := moving p && threshold (total_turns p).

(** The counters after the calls that left the player in the moving phase. *)
Definition moving_counters (ps : list Player) : list Z :=
  total_turns <$> List.filter moving ps.

(** The counters after the calls that invoked [shrink_board]. *)
Definition due_counters (ps : list Player) : list Z :=
  total_turns <$> List.filter due ps.

(** Every value from 127 on is larger than all values before it. *)
Fixpoint climbs (l : list Z) : bool :=
  match l with
  | [] => true
  | x :: rest => forallb (λ y, (y <? 127) || (x <? y)) rest && climbs rest
  end.

Definition is_action (c : Call) : bool :=
  match c with
  | CallAction _ => true
  | CallUpdate _ => false
  end.

(** The player's own turns, and the opponent's, in a sequence of calls. *)
Definition own_turns (calls : list Call) : Z :=
  Z.of_nat (length (List.filter is_action calls)).

Definition opponent_turns (calls : list Call) : Z :=
  Z.of_nat (length (List.filter (λ c, negb (is_action c)) calls)).

(** The phase follows the number of the player's own actions. *)
Definition counted (p : Player) (k : Z) : Prop :=
  total_actions p = k ∧
  (phase p = "placing" ∧ k < 12 ∨ phase p = "moving" ∧ 12 ≤ k).

(** *** Three claims as the spec words them *)

(** The shrink happens exactly twice in a game, at 127 and then at 191. *)
Definition fires_exactly_twice (colour : string) (calls : list Call) (w : World) : Prop :=
  ∀ ps w', game colour calls w = Some (ps, w') →
    due_counters ps = [127; 191] ∧
    length (shrunk w') = (length (shrunk w) + 2)%nat.

(** The phase is ['moving'] exactly when both sides have placed twelve pieces. *)
Definition switches_when_both_placed (colour : string) (calls : list Call) (w : World)
    : Prop :=
  ∀ ps w', game colour calls w = Some (ps, w') →
    ∀ n p, ps !! n = Some p →
      (phase p = "moving" ↔
         12 ≤ own_turns (take n calls) ∧ 12 ≤ opponent_turns (take n calls)).

(** [move_to_centre_algorithm] returns what the centralizing policy of the
    spec returns. *)
Definition centralizes_as_claimed (r : nat) (b : Board) (enemy player : string)
    (possmoves : list Move) (w : World) : Prop :=
  move_to_centre_algorithm r enemy player possmoves w
    = Some (claimed_move_to_centre b player, w).

End Views.

(** ** A board after the spec

    [board_state.py], [move.py], [action.py] and [placing_strategy.py] are not
    among the sources.  The definitions of this module follow sections 3, 4.1
    and 4.2 of the spec; they give the interface an instance on which the code
    can be run. *)

Module Model.

(** Modelled from the spec: the cell values of [BoardState]; side A is white
    (['O']), side B is black (['@']). *)
Inductive Cell := Empty | Corner | SideA | SideB.

Global Instance Cell_eq_dec : EqDecision Cell.
Proof. solve_decision. Defined.

(** Modelled from the spec: the contents of a [BoardState], the cells in play
    keyed by (column, row); a coordinate outside the map is inactive or off
    the grid.  [inset] counts the shrink events so far. *)
Record board := Board_mk {
  cells : gmap (Z * Z) Cell;
  inset : Z
}.

(** Modelled from the spec: what the referee exchanges, a placement, a
    movement, or nothing for a forfeited turn. *)
Inductive reply :=
  | Place (col row : Z)
  | Shift (src dst : Z * Z)
  | Pass.

Definition symbol (c : Cell) : string :=
  match c with
  | Empty => "-"
  | Corner => "X"
  | SideA => "O"
  | SideB => "@"
  end.

(** Modelled from the spec: the colour argument of [search_board] and
    [generate_moves].  The callers name colours ['W'] and ['B'] in some places
    and by the piece characters in others; both namings are accepted. *)
Definition side_of (colour : string) : option Cell :=
  if String.eqb colour "W" || String.eqb colour "O" then Some SideA
  else if String.eqb colour "B" || String.eqb colour "@" then Some SideB
  else None.

(** The side that acts when [enemy] is the opposing piece character. *)
Definition mover (enemy : string) : Cell :=
  if String.eqb enemy "@" then SideA else SideB.

Definition opposing (c : Cell) : Cell :=
  match c with
  | SideA => SideB
  | SideB => SideA
  | other => other
  end.

Definition is_piece (c : Cell) : bool :=
  match c with
  | SideA | SideB => true
  | _ => false
  end.

(** All coordinates of the 8x8 grid, row by row. *)
Definition coords : list (Z * Z) :=
  row ← range 8; col ← range 8; [(col, row)].

Definition directions : list (Z * Z) := [ (1, 0); (-1, 0); (0, 1); (0, -1) ].

Definition shift (p d : Z * Z) : Z * Z := (p.1 + d.1, p.2 + d.2).

Definition start_cell (p : Z * Z) : Cell :=
  if bool_decide (p ∈ corner_cells) then Corner else Empty.

(** Modelled from the spec: [BoardState()], the empty 8x8 board with its four
    corners. *)
Definition start : board :=
  Board_mk (list_to_map ((λ p, (p, start_cell p)) <$> coords)) 0.

(** Modelled from the spec: [BoardState.output_piece]; the spec leaves the
    result undefined outside the active region, where this reads ['#']. *)
Definition output_piece (b : board) (col row : Z) : string :=
  match cells b !! (col, row) with
  | Some c => symbol c
  | None => "#"
  end.

(** Modelled from the spec: custodial capture around the destination [d] of
    the side [me]; in each direction, an adjacent opposing piece is removed
    when the cell beyond it holds a piece of [me] or is a corner. *)
Definition capture_dir (me : Cell) (d : Z * Z) (m : gmap (Z * Z) Cell) (dir : Z * Z)
    : gmap (Z * Z) Cell :=
  let adj := shift d dir in
  let beyond := shift adj dir in
  if bool_decide (m !! adj = Some (opposing me)) &&
     (bool_decide (m !! beyond = Some me) || bool_decide (m !! beyond = Some Corner))
  then <[adj := Empty]> m
  else m.

Definition capture (me : Cell) (d : Z * Z) (m : gmap (Z * Z) Cell)
    : gmap (Z * Z) Cell :=
  foldl (capture_dir me d) m directions.

Definition put (p : Z * Z) (c : Cell) (m : gmap (Z * Z) Cell) : gmap (Z * Z) Cell :=
  alter (λ _, c) p m.

(** Modelled from the spec: [BoardState.modify], the placement or the move
    followed by the captures it makes; no action leaves the board as it is. *)
Definition modify (b : board) (a : option (string * reply)) (enemy : string) : board :=
  match a with
  | None => b
  | Some (_, Pass) => b
  | Some (_, Place col row) =>
      Board_mk (capture (mover enemy) (col, row) (put (col, row) (mover enemy) (cells b)))
               (inset b)
  | Some (_, Shift src dst) =>
      Board_mk (capture (mover enemy) dst (put dst (mover enemy) (put src Empty (cells b))))
               (inset b)
  end.

(** Modelled from the spec: [BoardState.shrink_board]; the outermost active
    ring is dropped, with the pieces on it. *)
Definition shrink_board (b : board) : board :=
  let k := inset b + 1 in
  Board_mk (filter (λ kv, k ≤ kv.1.1 ≤ 7 - k ∧ k ≤ kv.1.2 ≤ 7 - k) (cells b)) k.

Definition holds (b : board) (c : Cell) (p : Z * Z) : bool :=
  bool_decide (cells b !! p = Some c).

(** Modelled from the spec: [BoardState.search_board], the cells holding the
    colour, row by row. *)
Definition search_board (b : board) (colour : string) : list (Z * Z) :=
  match side_of colour with
  | Some side => List.filter (holds b side) coords
  | None => []
  end.

(** Modelled from the spec: the geometry of a move, a step to an orthogonally
    adjacent cell or a jump over an adjacent occupied cell. *)
Definition reaches (b : board) (src dst : Z * Z) : bool :=
  existsb (λ dir,
    bool_decide (dst = shift src dir) ||
    (bool_decide (dst = shift (shift src dir) dir) &&
     match cells b !! shift src dir with
     | Some c => is_piece c
     | None => false
     end)) directions.

(** Modelled from the spec: the validation of the [Move] constructor; the
    source holds a piece, the destination is active and empty. *)
Definition Move_new (b : board) (col row new_col new_row : Z)
    : option ((Z * Z) * (Z * Z)) :=
  match cells b !! (col, row), cells b !! (new_col, new_row) with
  | Some c, Some Empty =>
      if is_piece c && reaches b (col, row) (new_col, new_row)
      then Some ((col, row), (new_col, new_row))
      else None
  | _, _ => None
  end.

(** Modelled from the spec: the [Action] constructor, a tagged placement or
    move together with the opposing piece character. *)
Definition Action_new (b : board) (enemy : string) (a : option reply)
    (move : option ((Z * Z) * (Z * Z))) : string * reply :=
  match move, a with
  | Some (src, dst), _ => (enemy, Shift src dst)
  | None, Some r => (enemy, r)
  | None, None => (enemy, Pass)
  end.

Definition moves_from (b : board) (src dir : Z * Z) : list ((Z * Z) * (Z * Z)) :=
  let adj := shift src dir in
  let land := shift adj dir in
  match cells b !! adj with
  | Some Empty => [(src, adj)]
  | Some SideA | Some SideB =>
      match cells b !! land with
      | Some Empty => [(src, land)]
      | _ => []
      end
  | _ => []
  end.

(** Modelled from the spec: [generate_moves], for every piece of the colour
    its steps and jumps, in a fixed order of pieces and directions. *)
Definition generate_moves (b : board) (colour : string) : list ((Z * Z) * (Z * Z)) :=
  src ← search_board b colour; dir ← directions; moves_from b src dir.

(** A linear congruential generator stands for the [random] module of the
    Python library. *)
Definition next_seed (g : Z) : Z := (g * 1103515245 + 12345) `mod` 2147483648.

Definition randint (lo hi : Z) (g : Z) : Z * Z :=
  let g' := next_seed g in (lo + g' `mod` (hi - lo + 1), g').

(** Modelled from the spec: [do_random_place] of [placing_strategy]; the spec
    leaves the placing policy open, this one picks an empty cell at random. *)
Definition do_random_place (b : board) (enemy : string) (g : Z)
    : option (string * reply) * Z :=
  let free := List.filter (holds b Empty) coords in
  match free with
  | [] => (None, g)
  | _ =>
      let '(i, g') := randint 0 (Z.of_nat (length free) - 1) g in
      match free !! Z.to_nat i with
      | Some p => (Some (enemy, Place p.1 p.2), g')
      | None => (None, g')
      end
  end.

Global Instance collaborators : Collaborators :=
  Build_Collaborators
    board ((Z * Z) * (Z * Z)) (string * reply) reply Z
    start output_piece modify shrink_board search_board
    Move_new Action_new snd generate_moves do_random_place randint.

(** A world holding one board, and boards built from a list of pieces. *)
Definition with_pieces (ps : list ((Z * Z) * Cell)) : board :=
  Board_mk (foldr (λ pc m, put pc.1 pc.2 m) (cells start) ps) 0.

Definition world_of (b : board) : World := World_mk [b] 42 [].

Definition empty_world : World := World_mk [] 42 [].

End Model.


(** ** Positions and games to run the code on *)

Module Samples.
Import Model.

(** White on (2,2) and (4,3), black on (3,3): the white move from (2,2) to
    (2,3) flanks the black piece along row 3. *)
Definition flank_board : board :=
  with_pieces [ ((2, 2), SideA); ((4, 3), SideA); ((3, 3), SideB) ].

Definition flank_move : (Z * Z) * (Z * Z) := ((2, 2), (2, 3)).

(** White on (1,1), black on (2,1): the column step of the white piece is
    blocked, its row step to (1,2) is free. *)
Definition blocked_board : board :=
  with_pieces [ ((1, 1), SideA); ((2, 1), SideB) ].

(** A single white piece, on (3,3). *)
Definition lone_board : board := with_pieces [ ((3, 3), SideA) ].

(** The white player in the moving phase, its board the first of the heap. *)
Definition white_moving : Player := Player_mk "@" "O" 0 12 0 "moving".

(** The cells black places on, in order. *)
Definition black_cells : list (Z * Z) :=
  [ (1, 7); (2, 7); (3, 7); (4, 7); (5, 7); (6, 7);
    (1, 6); (2, 6); (3, 6); (4, 6); (5, 6); (6, 6) ].

(** White's calls in the placing phase: [action] with the even turn numbers,
    each followed by [update] with black's placement. *)
Fixpoint white_placing (turn : Z) (cells : list (Z * Z)) : list (@Call collaborators) :=
  match cells with
  | [] => []
  | p :: rest =>
      CallAction turn :: CallUpdate (Some (Place p.1 p.2))
        :: white_placing (turn + 2) rest
  end.

(** White has placed twelve pieces, black eleven. *)
Definition twelve_to_eleven : list (@Call collaborators) :=
  white_placing 0 (take 11 black_cells) ++ [ CallAction 22 ].

(** A game that ends early in the moving phase, after white's move of turn
    0, black's move from (1,6) to (1,5) and white's move of turn 2. *)
Definition short_game : list (@Call collaborators) :=
  white_placing 0 black_cells ++
  [ CallAction 0; CallUpdate (Some (Shift (1, 6) (1, 5))); CallAction 2 ].

(** [action] is called twice with turn 127, then with turn 191. *)
Definition repeated_turn : list (@Call collaborators) :=
  white_placing 0 black_cells ++ [ CallAction 127; CallAction 127; CallAction 191 ].

(** A game that passes both thresholds, its middle turns left out and black
    forfeiting the turns shown. *)
Definition long_game : list (@Call collaborators) :=
  white_placing 0 black_cells ++
  [ CallAction 0; CallUpdate None; CallAction 126; CallUpdate None;
    CallAction 190; CallUpdate None; CallAction 192 ].

End Samples.

(** ** Further views of the code *)

(** The ring a cell lies on: its distance from the nearest edge of the grid. *)
Definition ring_of (t : Z * Z) : Z :=
  Z.min (Z.min t.1 (7 - t.1)) (Z.min t.2 (7 - t.2)).

(** The 64 cells of the grid. *)
Definition grid_cells : list (Z * Z) :=
  c ← seqZ 0 8; r ← seqZ 0 8; [(c, r)].

(** A cell is a corner or is listed under the rank of its ring. *)
Definition ring_listed (t : Z * Z) : bool :=
  bool_decide (t ∈ corner_cells) ||
  match find_tiles_of_rank (ring_of t) with
  | Some l => bool_decide (t ∈ l)
  | None => false
  end.

(** A cell may be listed under rank [k]. *)
Definition ring_fits (k : Z) (t : Z * Z) : bool :=
  tile_ok t && (ring_of t =? k).

(** The block of cells for which [move_towards_centre] proposes no step. *)
Definition in_block (t : Z * Z) : Prop := 3 ≤ t.1 ≤ 5 ∧ 3 ≤ t.2 ≤ 5.

Section MoreViews.
Context `{Collaborators}.

(** The cell reached from [t] by following the proposed steps [n] times, on a
    board where every proposed step is valid. *)
Fixpoint walk (n : nat) (t : Z * Z) : Z * Z :=
  match n with
  | O => t
  | S n' =>
      match centre_step t.1 t.2 with
      | Some d => walk n' d
      | None => t
      end
  end.

(** The board a call leaves behind: shrunk when the call was due. *)
Definition settle (self : Player) (b : Board) : Board :=
  if due self then shrink_board b else b.

(** The action [Player.action] chooses, and the random state it leaves. *)
Definition chosen (self : Player) (b : Board) (g : Gen) : option Action * Gen :=
  if String.eqb (phase self) "placing" then do_random_place b (enemy self) g
  else
    let moves := generate_moves b (acting_colour (enemy self)) in
    match moves with
    | [] => (None, g)
    | _ =>
        let '(i, g') := randint 0 (Z.of_nat (length moves) - 1) g in
        (Some (Action_new b (enemy self) None (moves !! Z.to_nat i)), g')
    end.

(** The two worlds hold the same boards, but for the one at [r]. *)
Definition same_but (r : nat) (w w' : World) : Prop :=
  length (heap w') = length (heap w) ∧
  ∀ r', r' ≠ r → heap w' !! r' = heap w !! r'.

(** The calls a player receives in [n] rounds when it moves first in each
    round: [action] with the turn number, then [update]. *)
Fixpoint rounds_first (t : Z) (replies : list (option Reply)) : list Call :=
  match replies with
  | [] => []
  | a :: rest => CallAction t :: CallUpdate a :: rounds_first (t + 2) rest
  end.

(** The calls of a player that moves second in each round. *)
Fixpoint rounds_second (t : Z) (replies : list (option Reply)) : list Call :=
  match replies with
  | [] => []
  | a :: rest => CallUpdate a :: CallAction t :: rounds_second (t + 2) rest
  end.

End MoreViews.

(** ** More positions and calls to run the code on *)

Module MoreSamples.
Import Model.

(** The black player in the moving phase, its board the first of the heap. *)
Definition black_moving : Player := Player_mk "O" "@" 0 12 0 "moving".

(** [n] turns forfeited by the opponent. *)
Definition forfeits (n : nat) : list (option (@Reply collaborators)) :=
  replicate n None.

(** Eleven actions of white in the placing phase, with black's answers. *)
Definition eleven_each : list (@Call collaborators) :=
  Samples.white_placing 0 (take 11 Samples.black_cells).

(** A heap of two boards, the first one white's. *)
Definition two_boards : World :=
  @World_mk collaborators [Samples.lone_board; Samples.flank_board] 42 [].

(** White's move of turn 2 and a forfeit of black. *)
Definition one_round : list (@Call collaborators) :=
  [ CallAction 2; CallUpdate None ].

End MoreSamples.

(** * Properties *)

(** ** The rings of the board *)

Lemma tile_ok_spec t : tile_ok t = true → in_grid t ∧ t ∉ corner_cells.
Proof.
  unfold tile_ok, in_grid. rewrite !andb_true_iff, !bool_decide_eq_true. tauto.
Qed.

Lemma disjointb_spec l1 l2 t : disjointb l1 l2 = true → t ∈ l1 → t ∉ l2.
Proof.
  unfold disjointb. rewrite forallb_forall. intros H Ht.
  apply list_elem_of_In, H in Ht. by apply bool_decide_eq_true in Ht.
Qed.

Lemma rank_cases (r : Z) : 0 ≤ r ≤ 3 → r = 0 ∨ r = 1 ∨ r = 2 ∨ r = 3.
Proof. lia. Qed.

(** C9: for every rank 0..3 the table gives a list of cells of the 8x8 grid,
    none of them one of the four corner cells, and the lists of two different
    ranks have no cell in common. *)
Theorem find_tiles_of_rank_rings (r : Z) (Hr : 0 ≤ r ≤ 3) :
  ∃ l, find_tiles_of_rank r = Some l ∧
       (∀ t, t ∈ l → in_grid t ∧ t ∉ corner_cells) ∧
       (∀ r' l', 0 ≤ r' ≤ 3 → r' ≠ r → find_tiles_of_rank r' = Some l' →
                 ∀ t, t ∈ l → t ∉ l').
Proof.
  assert (Hall : ∀ l, forallb tile_ok l = true →
                      ∀ t, t ∈ l → in_grid t ∧ t ∉ corner_cells).
  { intros l Hl t Ht. apply tile_ok_spec.
    rewrite forallb_forall in Hl. by apply Hl, list_elem_of_In. }
  destruct (rank_cases r Hr) as [-> | [-> | [-> | ->]]];
    (eexists; split; [ vm_compute; reflexivity | split;
      [ apply Hall; vm_compute; reflexivity
      | intros r' l' Hr' Hne Hl' t; apply disjointb_spec;
        destruct (rank_cases r' Hr') as [-> | [-> | [-> | ->]]];
        try congruence;
        vm_compute in Hl'; injection Hl' as <-; vm_compute; reflexivity ]]).
Qed.

Lemma find_tiles_of_rank_rings_witness :
  ∃ l, find_tiles_of_rank 2 = Some l ∧
       (∀ t, t ∈ l → in_grid t ∧ t ∉ corner_cells) ∧
       (∀ r' l', 0 ≤ r' ≤ 3 → r' ≠ 2 → find_tiles_of_rank r' = Some l' →
                 ∀ t, t ∈ l → t ∉ l').
Proof. apply (find_tiles_of_rank_rings 2); lia. Defined.

(** ** Running the monad *)

Section Facts.
Context `{Collaborators}.

Lemma bind_Some {A B : Type} (m : M A) (f : A → M B) (w w1 : World) (a : A) :
  m w = Some (a, w1) → (m ≫= f) w = f a w1.
Proof. intros E. unfold mbind, M_bind. by rewrite E. Qed.

(** One step of a run: the first computation of a bind is replaced by its
    known result. *)
Tactic Notation "run" uconstr(known_result) :=
  rewrite (bind_Some _ _ _ _ _ known_result).

Lemma load_ok (w : World) (r : nat) (b : Board) :
  heap w !! r = Some b → load r w = Some (b, w).
Proof. intros E. unfold load. by rewrite E. Qed.

Lemma store_ok (w : World) (r : nat) (b : Board) :
  (r < length (heap w))%nat →
  store r b w = Some ((), World_mk (<[r:=b]> (heap w)) (gen w) (shrunk w)).
Proof. intros Hr. unfold store. by rewrite decide_True. Qed.

Lemma board_search_board_ok (w : World) (r : nat) (b : Board) (colour : string) :
  heap w !! r = Some b →
  board_search_board r colour w = Some (search_board b colour, w).
Proof. intros E. unfold board_search_board. by run (load_ok _ _ _ E). Qed.

Lemma board_output_piece_ok (w : World) (r : nat) (b : Board) (col row : Z) :
  heap w !! r = Some b →
  board_output_piece r col row w = Some (output_piece b col row, w).
Proof. intros E. unfold board_output_piece. by run (load_ok _ _ _ E). Qed.

Lemma make_Move_ok (w : World) (r : nat) (b : Board) (c ro nc nr : Z) :
  heap w !! r = Some b →
  make_Move r c ro nc nr w = Some (Move_new b c ro nc nr, w).
Proof. intros E. unfold make_Move. by run (load_ok _ _ _ E). Qed.

Lemma make_Action_ok (w : World) (r : nat) (b : Board) (e : string)
    (a : option Reply) (m : option Move) :
  heap w !! r = Some b →
  make_Action r e a m w = Some (Action_new b e a m, w).
Proof. intros E. unfold make_Action. by run (load_ok _ _ _ E). Qed.

Lemma call_generate_moves_ok (w : World) (r : nat) (b : Board) (colour : string) :
  heap w !! r = Some b →
  call_generate_moves r colour w = Some (generate_moves b colour, w).
Proof. intros E. unfold call_generate_moves. by run (load_ok _ _ _ E). Qed.

Lemma board_modify_ok (w : World) (r : nat) (b : Board) (a : option Action) (e : string) :
  heap w !! r = Some b →
  board_modify r a e w =
    Some ((), World_mk (<[r:=modify b a e]> (heap w)) (gen w) (shrunk w)).
Proof.
  intros E. unfold board_modify. run (load_ok _ _ _ E).
  apply store_ok. by eapply lookup_lt_Some.
Qed.

Lemma board_shrink_board_ok (w : World) (r : nat) (b : Board) :
  heap w !! r = Some b →
  board_shrink_board r w =
    Some ((), World_mk (<[r:=shrink_board b]> (heap w)) (gen w) (shrunk w ++ [r])).
Proof.
  intros E. unfold board_shrink_board. run (load_ok _ _ _ E).
  erewrite bind_Some; [| apply store_ok; by eapply lookup_lt_Some]. done.
Qed.

Lemma BoardState_copy_ok (w : World) (r : nat) (b : Board) :
  heap w !! r = Some b →
  BoardState_copy r w =
    Some (length (heap w), World_mk (heap w ++ [b]) (gen w) (shrunk w)).
Proof. intros E. unfold BoardState_copy. by run (load_ok _ _ _ E). Qed.

(** The three lines both simulations start with: copy the board, build the
    action on the original, apply it to the copy. *)
Lemma simulate_ok {B : Type} (k : nat → M B) (w : World) (r : nat) (b : Board)
    (e : string) (move : Move) :
  heap w !! r = Some b →
  (temp_board_state ← BoardState_copy r;
   action ← make_Action r e None (Some move);
   board_modify temp_board_state (Some action) e;;
   k temp_board_state) w
  = k (length (heap w)) (after_simulation w b e move).
Proof.
  intros E. run (BoardState_copy_ok _ _ _ E).
  set (w1 := World_mk (heap w ++ [b]) (gen w) (shrunk w)).
  assert (E1 : heap w1 !! r = Some b) by (by apply lookup_app_l_Some).
  assert (E2 : heap w1 !! length (heap w) = Some b)
    by (simpl; by rewrite list_lookup_middle).
  run (make_Action_ok _ _ _ e None (Some move) E1).
  run (board_modify_ok _ _ _ (Some (Action_new b e None (Some move))) e E2).
  unfold after_simulation, simulated. simpl.
  rewrite insert_app_r_alt by lia. by rewrite Nat.sub_diag.
Qed.

Lemma after_simulation_copy (w : World) (b : Board) (e : string) (move : Move) :
  heap (after_simulation w b e move) !! length (heap w) = Some (simulated b e move).
Proof. simpl. by rewrite list_lookup_middle. Qed.

Lemma after_simulation_old (w : World) (r : nat) (b b0 : Board) (e : string) (move : Move) :
  heap w !! r = Some b0 → heap (after_simulation w b e move) !! r = Some b0.
Proof. intros E. by apply lookup_app_l_Some. Qed.

Lemma check_move_for_elimination_ok (w : World) (r : nat) (b : Board)
    (enemy player : string) (move : Move) :
  heap w !! r = Some b →
  check_move_for_elimination r enemy player move w =
    Some (eliminates b enemy move, after_simulation w b enemy move).
Proof.
  intros E. unfold check_move_for_elimination.
  rewrite (simulate_ok _ w r b enemy move E). fold (search_key enemy).
  run (board_search_board_ok _ _ _ (search_key enemy) (after_simulation_copy w b enemy move)).
  run (board_search_board_ok _ _ _ (search_key enemy)
         (after_simulation_old w r b b enemy move E)).
  unfold eliminates, count. by destruct (Nat.eqb _ _).
Qed.

Lemma evalutate_this_move_ok (w : World) (r : nat) (b : Board)
    (enemy player : string) (move : Move) :
  heap w !! r = Some b →
  evalutate_this_move r enemy player move w =
    Some (Z.of_nat (count (simulated b enemy move) player)
            - Z.of_nat (count b (search_key enemy)),
          after_simulation w b enemy move).
Proof.
  intros E. unfold evalutate_this_move.
  rewrite (simulate_ok _ w r b enemy move E). fold (search_key enemy).
  run (board_search_board_ok _ _ _ player (after_simulation_copy w b enemy move)).
  run (board_search_board_ok _ _ _ (search_key enemy)
         (after_simulation_old w r b b enemy move E)).
  done.
Qed.

(** ** The two simulations *)

(** C4: when applying the move does not add opponent pieces,
    [check_move_for_elimination] returns, and it returns [True] exactly when
    the move takes at least one piece off the opponent's [search_board]; when
    it returns [False] the opponent's count is what it was. *)
Theorem check_move_for_elimination_detects (w : World) (r : nat) (b : Board)
    (enemy player : string) (move : Move) :
  heap w !! r = Some b →
  (count (simulated b enemy move) (search_key enemy) ≤ count b (search_key enemy))%nat →
  ∃ v w',
    check_move_for_elimination r enemy player move w = Some (v, w') ∧
    (v = true ↔
       (count (simulated b enemy move) (search_key enemy) + 1
          ≤ count b (search_key enemy))%nat) ∧
    (v = false →
       count (simulated b enemy move) (search_key enemy) = count b (search_key enemy)).
Proof.
  intros E Hle. eexists _, _. split; [by apply check_move_for_elimination_ok |].
  unfold eliminates.
  destruct (Nat.eqb_spec (count (simulated b enemy move) (search_key enemy))
                         (count b (search_key enemy))) as [Heq | Hne]; simpl.
  - split; [| done]. split; [discriminate | lia].
  - split; [| discriminate]. split; [lia | done].
Qed.

(** C8: both simulations return, and every board object that existed before
    the call, the one passed in among them, has the contents it had; the only
    change to the heap is the disposable copy added at its end. *)
Theorem simulations_leave_board (w : World) (r : nat) (b : Board)
    (enemy player : string) (move : Move) :
  heap w !! r = Some b →
  (∃ v w',
     check_move_for_elimination r enemy player move w = Some (v, w') ∧
     heap w' !! r = Some b ∧
     take (length (heap w)) (heap w') = heap w) ∧
  (∃ v w',
     evalutate_this_move r enemy player move w = Some (v, w') ∧
     heap w' !! r = Some b ∧
     take (length (heap w)) (heap w') = heap w).
Proof.
  intros E.
  assert (E4 : heap (after_simulation w b enemy move) !! r = Some b)
    by (by apply lookup_app_l_Some).
  assert (Ht : take (length (heap w)) (heap (after_simulation w b enemy move)) = heap w)
    by (simpl; by rewrite take_app_length).
  split; eexists _, _.
  - split; [by apply check_move_for_elimination_ok | done].
  - split; [by apply evalutate_this_move_ok | done].
Qed.

(** ** Random moves and forfeits *)

(** [random.randint(lo, hi)] returns an integer of the closed range. *)
Hypothesis randint_range : ∀ lo hi g, lo ≤ hi → lo ≤ (randint lo hi g).1 ≤ hi.

Lemma py_index_ok {A : Type} (l : list A) (i : Z) (w : World) :
  0 ≤ i < Z.of_nat (length l) →
  ∃ x, x ∈ l ∧ py_index l i w = Some (x, w).
Proof.
  intros Hi. unfold py_index.
  destruct (Z.ltb_spec i 0) as [? | _]; [lia |].
  destruct (Z.ltb_spec i 0) as [? | _]; [lia |].
  destruct (lookup_lt_is_Some_2 l (Z.to_nat i)) as [x Hx]; [lia |].
  exists x. rewrite Hx. split; [by eapply list_elem_of_lookup_2 | done].
Qed.

Lemma random_pick_ok {A B : Type} (l : list A) (k : A → M B) (w : World) :
  l ≠ [] →
  ∃ x w', x ∈ l ∧ heap w' = heap w ∧ shrunk w' = shrunk w ∧
    (i ← call_randint 0 (Z.of_nat (length l) - 1); x ← py_index l i; k x) w = k x w'.
Proof.
  intros Hl. assert (0 < length l)%nat by (destruct l; [done | simpl; lia]).
  pose proof (randint_range 0 (Z.of_nat (length l) - 1) (gen w)) as Hr.
  unfold mbind at 1, M_bind at 1, call_randint. rewrite decide_True by lia.
  destruct (randint 0 (Z.of_nat (length l) - 1) (gen w)) as [z g] eqn:Ez.
  simpl in Hr.
  destruct (py_index_ok l z (World_mk (heap w) g (shrunk w))) as (x & Hx & Hp); [lia |].
  exists x, (World_mk (heap w) g (shrunk w)).
  by run Hp.
Qed.

Lemma do_random_move_ok (w : World) (r : nat) (b : Board) (e : string) :
  heap w !! r = Some b →
  ∃ res w', do_random_move r e w = Some (res, w') ∧
    heap w' = heap w ∧ shrunk w' = shrunk w ∧
    (res = None ↔ generate_moves b (acting_colour e) = []) ∧
    (∀ a, res = Some a →
          ∃ m, m ∈ generate_moves b (acting_colour e) ∧ a = Action_new b e None (Some m)).
Proof.
  intros E. unfold do_random_move.
  assert (Hg : (if String.eqb e "@" then call_generate_moves r "W"
                else call_generate_moves r "B") w
               = Some (generate_moves b (acting_colour e), w)).
  { unfold acting_colour. destruct (String.eqb e "@"); by apply call_generate_moves_ok. }
  run Hg.
  destruct (generate_moves b (acting_colour e)) as [| m0 ms] eqn:Em.
  - simpl. exists None, w. repeat split; try done.
  - change (negb (Nat.eqb (length (m0 :: ms)) 0)) with true. cbv iota.
    match goal with
    | |- context [ (call_randint _ _ ≫= λ i, py_index _ i ≫= ?k) w ] =>
        destruct (random_pick_ok (m0 :: ms) k w) as (x & w1 & Hx & Hh & Hs & Hp); [done |]
    end.
    rewrite Hp.
    assert (E1 : heap w1 !! r = Some b) by (by rewrite Hh).
    run (make_Action_ok _ _ _ _ _ _ E1).
    exists (Some (Action_new b e None (Some x))), w1.
    repeat split; try done.
    intros a [= <-]. by exists x.
Qed.

Lemma check_shrink_ok (self : Player) (w : World) :
  is_Some (heap w !! board self) →
  ∃ w', check_shrink self w = Some ((), w') ∧
    is_Some (heap w' !! board self) ∧
    shrunk w' = shrunk w ++ (if due self then [board self] else []).
Proof.
  intros [b E]. unfold check_shrink, due, moving, threshold.
  assert (Hs : ∃ w', board_shrink_board (board self) w = Some ((), w') ∧
                     is_Some (heap w' !! board self) ∧
                     shrunk w' = shrunk w ++ [board self]).
  { eexists. split; [by apply board_shrink_board_ok |]. simpl. split; [| done].
    apply lookup_lt_is_Some. rewrite length_insert. by eapply lookup_lt_Some. }
  assert (Hn : ∃ w', (mret () : M ()) w = Some ((), w') ∧
                     is_Some (heap w' !! board self) ∧
                     shrunk w' = shrunk w ++ []).
  { exists w. rewrite app_nil_r. by repeat split. }
  destruct (String.eqb (phase self) "moving"); simpl; [| done].
  destruct (total_turns self =? 127); simpl; [done |].
  by destruct (total_turns self =? 191).
Qed.

Lemma action_ok (self : Player) (turns : Z) (w : World) (b : Board) :
  heap w !! board self = Some b →
  ∃ out w', action self turns w = Some ((bookkeeping self turns, out), w') ∧
    is_Some (heap w' !! board self) ∧
    shrunk w' = shrunk w ++ (if due (bookkeeping self turns) then [board self] else []) ∧
    (String.eqb (phase self) "placing" = false →
       (out = None ↔ generate_moves b (acting_colour (enemy self)) = []) ∧
       (∀ x, out = Some x →
             ∃ m, m ∈ generate_moves b (acting_colour (enemy self)) ∧
                  x = return_action (Action_new b (enemy self) None (Some m)))).
Proof.
  intros E. unfold action.
  assert (Hb : board (bookkeeping self turns) = board self).
  { unfold bookkeeping. simpl. destruct (String.eqb _ _); [| done].
    by destruct (_ =? 12). }
  assert (Hact : ∃ act w1,
    (if String.eqb (phase self) "placing"
     then a ← call_do_random_place (board self) (enemy self);
          board_modify (board self) a (enemy self);; mret a
     else a ← do_random_move (board self) (enemy self);
          board_modify (board self) a (enemy self);; mret a) w = Some (act, w1) ∧
    is_Some (heap w1 !! board self) ∧ shrunk w1 = shrunk w ∧
    (String.eqb (phase self) "placing" = false →
       (act = None ↔ generate_moves b (acting_colour (enemy self)) = []) ∧
       (∀ a, act = Some a →
             ∃ m, m ∈ generate_moves b (acting_colour (enemy self)) ∧
                  a = Action_new b (enemy self) None (Some m)))).
  { destruct (String.eqb (phase self) "placing").
    - unfold mbind at 1, M_bind at 1, call_do_random_place. rewrite E.
      destruct (do_random_place b (enemy self) (gen w)) as [a g].
      set (w0 := World_mk (heap w) g (shrunk w)).
      assert (E0 : heap w0 !! board self = Some b) by done.
      run (board_modify_ok _ _ _ a (enemy self) E0).
      eexists _, _. split; [done |]. simpl. split; [| done].
      apply lookup_lt_is_Some. rewrite length_insert. by eapply lookup_lt_Some.
    - destruct (do_random_move_ok w (board self) b (enemy self) E)
        as (res & w1 & Hd & Hh & Hs & Hnone & Hsome).
      run Hd.
      assert (E1 : heap w1 !! board self = Some b) by (by rewrite Hh).
      run (board_modify_ok _ _ _ res (enemy self) E1).
      eexists _, _. split; [done |]. simpl. split; [| done].
      apply lookup_lt_is_Some. rewrite length_insert. by eapply lookup_lt_Some. }
  destruct Hact as (act & w1 & Hrun & Hv & Hs & Hmoves).
  run Hrun.
  destruct (check_shrink_ok (bookkeeping self turns) w1) as (w2 & Hc & Hv2 & Hs2);
    [by rewrite Hb |].
  run Hc.
  rewrite Hb in Hv2, Hs2. rewrite Hs in Hs2.
  destruct act as [a |].
  - exists (Some (return_action a)), w2.
    split; [done |]. split; [done |]. split; [done |].
    intros Hph. destruct (Hmoves Hph) as [Hn Hm]. split.
    + split; [discriminate | intros Hg; apply Hn in Hg; discriminate].
    + intros x [= <-]. destruct (Hm a eq_refl) as (m & Hin & ->). by exists m.
  - exists None, w2.
    split; [done |]. split; [done |]. split; [done |].
    intros Hph. destruct (Hmoves Hph) as [Hn Hm]. split.
    + split; [intros _; by apply Hn | done].
    + intros x Hx. discriminate.
Qed.

(** C6: in the moving phase, [do_random_move] returns [None] exactly when
    [generate_moves] has no move for the acting colour, and then
    [Player.action] hands [None] to the referee; otherwise it returns the
    [Action] built on one of the generated moves, and [Player.action] hands
    over what that action's [return_action] gives. *)
Theorem do_random_move_forfeit (self : Player) (turns : Z) (w : World) (b : Board) :
  heap w !! board self = Some b →
  String.eqb (phase self) "placing" = false →
  (∃ res w', do_random_move (board self) (enemy self) w = Some (res, w') ∧
     (res = None ↔ generate_moves b (acting_colour (enemy self)) = []) ∧
     (∀ a, res = Some a →
           ∃ m, m ∈ generate_moves b (acting_colour (enemy self)) ∧
                a = Action_new b (enemy self) None (Some m))) ∧
  (∃ self' out w', action self turns w = Some ((self', out), w') ∧
     (out = None ↔ generate_moves b (acting_colour (enemy self)) = []) ∧
     (∀ x, out = Some x →
           ∃ m, m ∈ generate_moves b (acting_colour (enemy self)) ∧
                x = return_action (Action_new b (enemy self) None (Some m)))).
Proof.
  intros E Hph. split.
  - destruct (do_random_move_ok w (board self) b (enemy self) E)
      as (res & w1 & Hd & _ & _ & Hnone & Hsome).
    by exists res, w1.
  - destruct (action_ok self turns w b E) as (out & w' & Ha & _ & _ & Hm).
    destruct (Hm Hph) as [Hnone Hsome].
    by exists (bookkeeping self turns), out, w'.
Qed.

(** ** Sequences of calls *)

Lemma bookkeeping_board (self : Player) (turns : Z) :
  board (bookkeeping self turns) = board self.
Proof.
  unfold bookkeeping. simpl. destruct (String.eqb _ _); [| done]. by destruct (_ =? 12).
Qed.

Lemma after_call_board (self : Player) (c : Call) : board (after_call self c) = board self.
Proof. destruct c; [apply bookkeeping_board | done]. Qed.

Lemma update_ok (self : Player) (act : option Reply) (w : World) :
  is_Some (heap w !! board self) →
  ∃ w', update self act w = Some (after_call self (CallUpdate act), w') ∧
    is_Some (heap w' !! board self) ∧
    shrunk w' = shrunk w ++
      (if due (after_call self (CallUpdate act)) then [board self] else []).
Proof.
  intros [b E]. unfold update. simpl board. simpl piece.
  run (make_Action_ok _ _ _ _ _ _ E).
  run (board_modify_ok _ _ _ _ _ E).
  match goal with
  | |- context [ (check_shrink ?p ≫= _) ?w1 ] =>
      destruct (check_shrink_ok p w1) as (w2 & Hc & Hv & Hs)
  end.
  { simpl. apply lookup_lt_is_Some. rewrite length_insert. by eapply lookup_lt_Some. }
  run Hc. by exists w2.
Qed.

Lemma step_ok (self : Player) (c : Call) (w : World) :
  is_Some (heap w !! board self) →
  ∃ w', step self c w = Some (after_call self c, w') ∧
    is_Some (heap w' !! board self) ∧
    shrunk w' = shrunk w ++ (if due (after_call self c) then [board self] else []).
Proof.
  intros Hv. destruct c as [turns | act]; simpl.
  - destruct Hv as [b E].
    destruct (action_ok self turns w b E) as (out & w' & Ha & Hv' & Hs & _).
    run Ha. by exists w'.
  - by apply update_ok.
Qed.

Lemma history_ok (self : Player) (calls : list Call) (w : World) :
  is_Some (heap w !! board self) →
  ∃ w', history self calls w = Some (states self calls, w') ∧
    shrunk w' = shrunk w ++ (board <$> List.filter due (states self calls)).
Proof.
  revert self w. induction calls as [| c rest IH]; intros self w Hv; simpl.
  - exists w. by rewrite app_nil_r.
  - destruct (step_ok self c w Hv) as (w1 & Hstep & Hv1 & Hs1).
    run Hstep.
    destruct (IH (after_call self c) w1) as (w2 & Hh & Hs2);
      [by rewrite after_call_board |].
    run Hh. exists w2. split; [done |].
    rewrite Hs2, Hs1, <- app_assoc. f_equal.
    destruct (due (after_call self c)); simpl; [| done].
    by rewrite after_call_board.
Qed.

Lemma game_ok (colour : string) (calls : list Call) (w : World) :
  let p0 := fresh_player colour (length (heap w)) in
  ∃ w', game colour calls w = Some (p0 :: states p0 calls, w') ∧
    shrunk w' = shrunk w ++ (board <$> List.filter due (p0 :: states p0 calls)).
Proof.
  intros p0. unfold game, Player_init.
  assert (Hinit : ∃ w0, (let '(e, p) := if String.eqb colour "white"
                                        then ("@", "O") else ("O", "@") in
                         b ← BoardState_empty; mret (Player_mk e p b 0 0 "placing")) w
                        = Some (p0, w0) ∧
                        is_Some (heap w0 !! board p0) ∧ shrunk w0 = shrunk w ∧
                        due p0 = false).
  { exists (World_mk (heap w ++ [BoardState_new]) (gen w) (shrunk w)).
    subst p0. unfold fresh_player.
    destruct (String.eqb colour "white"); simpl;
      (split; [done |]; split; [| done]; rewrite list_lookup_middle; done). }
  destruct Hinit as (w0 & Hi & Hv & Hs & Hd).
  run Hi.
  destruct (history_ok p0 calls w0 Hv) as (w' & Hh & Hs').
  run Hh. exists w'. split; [done |].
  simpl. rewrite Hd. by rewrite Hs', Hs.
Qed.

(** The states of a game are the pure runs over the prefixes of the calls. *)
Lemma states_lookup (self : Player) (calls : list Call) (n : nat) (p : Player) :
  (self :: states self calls) !! n = Some p →
  p = foldl after_call self (take n calls).
Proof.
  revert self calls. induction n as [| n IH]; intros self calls Hn.
  - simpl in Hn. injection Hn as <-. by rewrite take_0.
  - destruct calls as [| c rest]; [done |]. simpl in Hn. simpl. by apply IH.
Qed.

Lemma own_turns_cons (c : Call) (calls : list Call) :
  own_turns (c :: calls) = (if is_action c then 1 else 0) + own_turns calls.
Proof. unfold own_turns. simpl. destruct (is_action c); simpl; lia. Qed.

Lemma own_turns_nonneg (calls : list Call) : 0 ≤ own_turns calls.
Proof. unfold own_turns. lia. Qed.

Lemma after_call_counted (p : Player) (k : Z) (c : Call) :
  counted p k → counted (after_call p c) (k + (if is_action c then 1 else 0)).
Proof.
  intros [Ha Hp]. destruct c as [turns | act]; simpl.
  - unfold bookkeeping, counted. simpl. rewrite Ha.
    destruct Hp as [[Hph Hk] | [Hph Hk]]; rewrite Hph; simpl.
    + destruct (Z.eqb_spec (k + 1) 12) as [He | Hne]; simpl.
      * split; [done |]. right. split; [done | lia].
      * split; [done |]. left. split; [done | lia].
    + split; [done |]. right. split; [done | lia].
  - rewrite Z.add_0_r. by split.
Qed.

Lemma foldl_counted (calls : list Call) (p : Player) (k : Z) :
  counted p k → counted (foldl after_call p calls) (k + own_turns calls).
Proof.
  revert p k. induction calls as [| c rest IH]; intros p k Hc; simpl.
  - unfold own_turns. simpl. by rewrite Z.add_0_r.
  - rewrite own_turns_cons, Z.add_assoc. by apply IH, after_call_counted.
Qed.

Lemma fresh_player_counted (colour : string) (r : nat) : counted (fresh_player colour r) 0.
Proof.
  unfold fresh_player. destruct (String.eqb colour "white");
    (split; [done |]; left; split; [done | lia]).
Qed.

Lemma own_turns_take_mono (calls : list Call) (i j : nat) :
  (i ≤ j)%nat → own_turns (take i calls) ≤ own_turns (take j calls).
Proof.
  revert i j. induction calls as [| c rest IH]; intros i j Hij.
  - by rewrite !take_nil.
  - destruct i as [| i]; [rewrite take_0; apply own_turns_nonneg |].
    destruct j as [| j]; [lia |]. simpl. rewrite !own_turns_cons.
    specialize (IH i j). lia.
Qed.

Lemma states_length (self : Player) (calls : list Call) :
  length (states self calls) = length calls.
Proof.
  revert self. induction calls as [| c rest IH]; intros self; simpl; [done |].
  by rewrite IH.
Qed.

(** The state after [n] calls of a game, and what its phase says. *)
Lemma game_state_counted (colour : string) (r : nat) (calls : list Call)
    (n : nat) (p : Player) :
  (fresh_player colour r :: states (fresh_player colour r) calls) !! n = Some p →
  counted p (own_turns (take n calls)).
Proof.
  intros Hn. apply states_lookup in Hn as ->.
  apply (foldl_counted _ _ 0), fresh_player_counted.
Qed.

Lemma counted_moving (p : Player) (k : Z) : counted p k → (phase p = "moving" ↔ 12 ≤ k).
Proof.
  intros [_ [[Hp Hk] | [Hp Hk]]]; rewrite Hp; split; try done; try lia.
Qed.

Lemma counted_placing (p : Player) (k : Z) : counted p k → (phase p = "placing" ↔ k < 12).
Proof.
  intros [_ [[Hp Hk] | [Hp Hk]]]; rewrite Hp; split; try done; try lia.
Qed.

(** C10: in every game the phase is ['placing'] or ['moving'] after the
    construction of the player and after every call, and once a call has left
    it ['moving'] it is ['moving'] after every later call. *)
Theorem phase_placing_then_moving (colour : string) (calls : list Call) (w : World) :
  ∃ ps w', game colour calls w = Some (ps, w') ∧
    length ps = S (length calls) ∧
    (∀ p, p ∈ ps → phase p = "placing" ∨ phase p = "moving") ∧
    (∀ i j p q, (i ≤ j)%nat → ps !! i = Some p → ps !! j = Some q →
                phase p = "moving" → phase q = "moving").
Proof.
  destruct (game_ok colour calls w) as (w' & Hg & _).
  eexists _, w'. split; [exact Hg |]. split; [| split].
  - simpl. by rewrite states_length.
  - intros p Hp. apply list_elem_of_lookup in Hp as [n Hn].
    apply game_state_counted in Hn as [_ [[Hph _] | [Hph _]]]; auto.
  - intros i j p q Hij Hi Hj Hp.
    apply game_state_counted in Hi, Hj.
    apply (counted_moving _ _ Hi) in Hp. apply (counted_moving _ _ Hj).
    pose proof (own_turns_take_mono calls i j Hij). lia.
Qed.

(** C5 (amended): the phase changes from ['placing'] to ['moving'] in the
    player's own twelfth call of [action], whatever the opponent has placed by
    then: after any number of calls the phase is ['moving'] exactly when at
    least twelve of them were calls of [action], and [total_actions] counts
    them. *)
Theorem phase_switch_at_twelfth_action (colour : string) (calls : list Call) (w : World) :
  ∃ ps w', game colour calls w = Some (ps, w') ∧
    ∀ n p, ps !! n = Some p →
      total_actions p = own_turns (take n calls) ∧
      (phase p = "moving" ↔ 12 ≤ own_turns (take n calls)) ∧
      (phase p = "placing" ↔ own_turns (take n calls) < 12).
Proof.
  destruct (game_ok colour calls w) as (w' & Hg & _).
  eexists _, w'. split; [exact Hg |].
  intros n p Hn. apply game_state_counted in Hn.
  split; [apply Hn |]. split; [by apply counted_moving | by apply counted_placing].
Qed.

(** *** The shrink schedule *)

Lemma due_counters_filter (ps : list Player) :
  due_counters ps = List.filter threshold (moving_counters ps).
Proof.
  unfold due_counters, moving_counters.
  induction ps as [| p rest IH]; [done |].
  cbn [List.filter]. unfold due at 1. destruct (moving p); cbn [andb].
  - rewrite fmap_cons. cbn [List.filter].
    destruct (threshold (total_turns p)); [by rewrite fmap_cons, IH | exact IH].
  - exact IH.
Qed.

Lemma threshold_cases (t : Z) : threshold t = true → t = 127 ∨ t = 191.
Proof. unfold threshold. rewrite orb_true_iff, !Z.eqb_eq. tauto. Qed.

Lemma filter_threshold_elem (l : list Z) (y : Z) :
  In y (List.filter threshold l) → In y l ∧ (y = 127 ∨ y = 191).
Proof. rewrite filter_In. intros [Hy Ht]. split; [done | by apply threshold_cases]. Qed.

(** A climbing list meets each threshold at most once, 127 before 191. *)
Lemma climbs_thresholds (l : list Z) :
  climbs l = true →
  List.filter threshold l = [] ∨ List.filter threshold l = [127] ∨
  List.filter threshold l = [191] ∨ List.filter threshold l = [127; 191].
Proof.
  induction l as [| x rest IH]; simpl; [auto |].
  rewrite andb_true_iff, forallb_forall. intros [Hx Hrest].
  specialize (IH Hrest).
  assert (Hlater : ∀ y, In y (List.filter threshold rest) → x < y).
  { intros y Hy. apply filter_threshold_elem in Hy as [Hy Hc].
    specialize (Hx y Hy). apply orb_true_iff in Hx as [Hx | Hx]; lia. }
  destruct (threshold x) eqn:Et; [| done].
  apply threshold_cases in Et as [-> | ->].
  - destruct IH as [-> | [E | [-> | E]]]; auto.
    + specialize (Hlater 127). rewrite E in Hlater. simpl in Hlater. lia.
    + specialize (Hlater 127). rewrite E in Hlater. simpl in Hlater. lia.
  - destruct IH as [-> | [E | [E | E]]]; auto.
    + specialize (Hlater 127). rewrite E in Hlater. simpl in Hlater. lia.
    + specialize (Hlater 191). rewrite E in Hlater. simpl in Hlater. lia.
    + specialize (Hlater 127). rewrite E in Hlater. simpl in Hlater. lia.
Qed.

(** C1 (amended): [shrink_board] is invoked once in every call that leaves
    the player in the moving phase with the turn counter on 127 or on 191, and
    in no other call; in a game whose counter, from 127 on, is larger after
    each call than after all calls before, that is at most one invocation at
    127 and at most one at 191, the one at 127 first. *)
Theorem shrink_schedule (colour : string) (calls : list Call) (w : World) :
  ∃ ps w', game colour calls w = Some (ps, w') ∧
    shrunk w' = shrunk w ++ (board <$> List.filter due ps) ∧
    (climbs (moving_counters ps) = true → due_counters ps `sublist_of` [127; 191]).
Proof.
  destruct (game_ok colour calls w) as (w' & Hg & Hs).
  eexists _, w'. split; [exact Hg |]. split; [exact Hs |].
  intros Hc. rewrite due_counters_filter.
  destruct (climbs_thresholds _ Hc) as [-> | [-> | [-> | ->]]].
  - apply sublist_nil_l.
  - apply sublist_skip, sublist_nil_l.
  - apply sublist_cons, sublist_skip, sublist_nil_l.
  - done.
Qed.

(** ** Moving towards the centre *)

Lemma move_towards_centre_ok (w : World) (r : nat) (b : Board) (col row : Z) (e : string) :
  heap w !! r = Some b →
  move_towards_centre r col row e w =
    Some (match centre_step col row with
          | Some d => match Move_new b col row d.1 d.2 with
                      | Some _ => Some d
                      | None => None
                      end
          | None => None
          end, w).
Proof.
  intros E. unfold move_towards_centre, centre_step.
  destruct (Z.gtb_spec col 5) as [Hc | Hc].
  - destruct (Z.eqb_spec (col - 1) col) as [? | _]; [lia |]. simpl.
    run (make_Move_ok _ _ _ _ _ _ _ E).
    by destruct (Move_new b col row (col - 1) row).
  - destruct (Z.ltb_spec col 3) as [Hc' | Hc'].
    + destruct (Z.eqb_spec (col + 1) col) as [? | _]; [lia |]. simpl.
      run (make_Move_ok _ _ _ _ _ _ _ E).
      by destruct (Move_new b col row (col + 1) row).
    + rewrite Z.eqb_refl. simpl.
      destruct (Z.gtb_spec row 5) as [Hr | Hr].
      * destruct (Z.eqb_spec (row - 1) row) as [? | _]; [lia |]. simpl.
        run (make_Move_ok _ _ _ _ _ _ _ E).
        by destruct (Move_new b col row col (row - 1)).
      * destruct (Z.ltb_spec row 3) as [Hr' | Hr'].
        -- destruct (Z.eqb_spec (row + 1) row) as [? | _]; [lia |]. simpl.
           run (make_Move_ok _ _ _ _ _ _ _ E).
           by destruct (Move_new b col row col (row + 1)).
        -- by rewrite Z.eqb_refl.
Qed.

Lemma scan_tiles_ok (w : World) (r : nat) (b : Board) (e player : string)
    (tiles : list (Z * Z)) :
  heap w !! r = Some b →
  scan_tiles r e player tiles w = Some (first_offer b player tiles, w).
Proof.
  intros E. induction tiles as [| t rest IH]; simpl; [done |].
  run (board_output_piece_ok _ _ _ _ _ E).
  destruct (String.eqb (output_piece b t.1 t.2) player); [| exact IH].
  run (move_towards_centre_ok _ _ _ _ _ _ E).
  unfold offer. destruct (centre_step t.1 t.2) as [d |]; [| exact IH].
  destruct (Move_new b t.1 t.2 d.1 d.2) as [m |] eqn:Em; [| exact IH].
  run (make_Move_ok _ _ _ _ _ _ _ E).
  simpl. by rewrite Em.
Qed.

Lemma first_offer_app (b : Board) (player : string) (l1 l2 : list (Z * Z)) :
  first_offer b player (l1 ++ l2) =
    match first_offer b player l1 with
    | Some m => Some m
    | None => first_offer b player l2
    end.
Proof.
  induction l1 as [| t rest IH]; simpl; [done |].
  destruct (String.eqb _ _); [| exact IH].
  by destruct (offer b t).
Qed.

Lemma scan_ranks_ok (w : World) (r : nat) (b : Board) (e player : string)
    (ranks : list Z) :
  heap w !! r = Some b →
  Forall (λ x, is_Some (find_tiles_of_rank x)) ranks →
  scan_ranks r e player ranks w =
    Some (first_offer b player (x ← ranks; default [] (find_tiles_of_rank x)), w).
Proof.
  intros E Hall. induction Hall as [| x rest [tiles Hx] Hrest IH]; simpl; [done |].
  rewrite Hx. simpl.
  run (scan_tiles_ok _ _ _ _ _ tiles E).
  rewrite first_offer_app.
  by destruct (first_offer b player tiles).
Qed.

Lemma first_offer_Some (b : Board) (player : string) (tiles : list (Z * Z)) (m : Move) :
  first_offer b player tiles = Some m →
  ∃ (i : nat) (t d : Z * Z),
    tiles !! i = Some t ∧ output_piece b t.1 t.2 = player ∧
    centre_step t.1 t.2 = Some d ∧ Move_new b t.1 t.2 d.1 d.2 = Some m ∧
    ∀ (j : nat) (t' : Z * Z), (j < i)%nat → tiles !! j = Some t' →
      output_piece b t'.1 t'.2 = player → passed_over b t'.
Proof.
  induction tiles as [| t rest IH]; simpl; [done |].
  destruct (String.eqb_spec (output_piece b t.1 t.2) player) as [Hp | Hp].
  - unfold offer at 1. destruct (centre_step t.1 t.2) as [d |] eqn:Ed.
    + destruct (Move_new b t.1 t.2 d.1 d.2) as [m' |] eqn:Em.
      * intros [= <-]. exists 0%nat, t, d. repeat split; try done. intros j t' Hj. lia.
      * intros Hr. destruct (IH Hr) as (i & t0 & d0 & Hi & Hp0 & Hd0 & Hm0 & Hbefore).
        exists (S i), t0, d0. repeat split; try done.
        intros [| j] t' Hj Hl Ho.
        -- simpl in Hl. injection Hl as <-. intros d' Hd'.
           rewrite Ed in Hd'. by injection Hd' as <-.
        -- simpl in Hl. apply (Hbefore j); [lia | done | done].
    + intros Hr. destruct (IH Hr) as (i & t0 & d0 & Hi & Hp0 & Hd0 & Hm0 & Hbefore).
      exists (S i), t0, d0. repeat split; try done.
      intros [| j] t' Hj Hl Ho.
      -- simpl in Hl. injection Hl as <-. intros d' Hd'. by rewrite Ed in Hd'.
      -- simpl in Hl. apply (Hbefore j); [lia | done | done].
  - intros Hr. destruct (IH Hr) as (i & t0 & d0 & Hi & Hp0 & Hd0 & Hm0 & Hbefore).
    exists (S i), t0, d0. repeat split; try done.
    intros [| j] t' Hj Hl Ho.
    + simpl in Hl. injection Hl as <-. done.
    + simpl in Hl. apply (Hbefore j); [lia | done | done].
Qed.

Lemma first_offer_None (b : Board) (player : string) (tiles : list (Z * Z)) :
  first_offer b player tiles = None →
  ∀ t, t ∈ tiles → output_piece b t.1 t.2 = player → passed_over b t.
Proof.
  induction tiles as [| t0 rest IH]; simpl; intros Hn t Ht Hp.
  - by apply elem_of_nil in Ht.
  - apply elem_of_cons in Ht as [-> | Ht].
    + rewrite Hp, String.eqb_refl in Hn. unfold offer in Hn.
      intros d Hd. rewrite Hd in Hn. by destruct (Move_new b t0.1 t0.2 d.1 d.2).
    + apply IH; [| done | done].
      destruct (String.eqb _ _); [| done]. by destruct (offer b t0).
Qed.

Lemma centre_step_closer (col row : Z) (d : Z * Z) :
  centre_step col row = Some d → dist2 d < dist2 (col, row).
Proof.
  unfold centre_step, dist2.
  destruct (Z.gtb_spec col 5); [intros [= <-]; simpl; nia |].
  destruct (Z.ltb_spec col 3); [intros [= <-]; simpl; nia |].
  destruct (Z.gtb_spec row 5); [intros [= <-]; simpl; nia |].
  destruct (Z.ltb_spec row 3); [intros [= <-]; simpl; nia | done].
Qed.

Lemma centre_step_axis (col row : Z) (d : Z * Z) :
  centre_step col row = Some d →
  ((col < 3 ∨ 5 < col) ∧ d.2 = row ∧ (d.1 = col + 1 ∨ d.1 = col - 1)) ∨
  (3 ≤ col ≤ 5 ∧ d.1 = col ∧ (d.2 = row + 1 ∨ d.2 = row - 1)).
Proof.
  unfold centre_step.
  destruct (Z.gtb_spec col 5); [intros [= <-]; simpl; left; lia |].
  destruct (Z.ltb_spec col 3); [intros [= <-]; simpl; left; lia |].
  destruct (Z.gtb_spec row 5); [intros [= <-]; simpl; right; lia |].
  destruct (Z.ltb_spec row 3); [intros [= <-]; simpl; right; lia | done].
Qed.

Lemma scan_order_ranks : Forall (λ x, is_Some (find_tiles_of_rank x)) (range 3).
Proof. vm_compute. repeat constructor; eexists; reflexivity. Qed.

Lemma move_to_centre_algorithm_ok (w : World) (r : nat) (b : Board)
    (e player : string) (possmoves : list Move) :
  heap w !! r = Some b →
  move_to_centre_algorithm r e player possmoves w =
    Some (first_offer b player scan_order, w).
Proof.
  intros E. unfold move_to_centre_algorithm.
  by apply scan_ranks_ok, scan_order_ranks.
Qed.

(** C3 (amended): [move_to_centre_algorithm] scans the rings of rank 0, 1 and
    2, in that order and each in the order of its table, and returns the move
    of the first piece of the acting colour for which [move_towards_centre]
    finds a destination: one step along the column axis when the column is
    below 3 or above 5, else one step along the row axis, valid and strictly
    nearer the centre.  A piece whose proposed step is invalid is passed over,
    its row step untried when the invalid step was the column step.  It
    returns nothing exactly when every scanned piece is passed over. *)
Theorem move_to_centre_algorithm_first_offer (w : World) (r : nat) (b : Board)
    (e player : string) (possmoves : list Move) :
  heap w !! r = Some b →
  ∃ res l0 l1 l2,
    move_to_centre_algorithm r e player possmoves w = Some (res, w) ∧
    find_tiles_of_rank 0 = Some l0 ∧ find_tiles_of_rank 1 = Some l1 ∧
    find_tiles_of_rank 2 = Some l2 ∧ scan_order = l0 ++ l1 ++ l2 ∧
    match res with
    | Some m =>
        ∃ (i : nat) (t d : Z * Z),
          scan_order !! i = Some t ∧ output_piece b t.1 t.2 = player ∧
          centre_step t.1 t.2 = Some d ∧ Move_new b t.1 t.2 d.1 d.2 = Some m ∧
          dist2 d < dist2 t ∧
          (((t.1 < 3 ∨ 5 < t.1) ∧ d.2 = t.2 ∧ (d.1 = t.1 + 1 ∨ d.1 = t.1 - 1)) ∨
           (3 ≤ t.1 ≤ 5 ∧ d.1 = t.1 ∧ (d.2 = t.2 + 1 ∨ d.2 = t.2 - 1))) ∧
          ∀ (j : nat) (t' : Z * Z), (j < i)%nat → scan_order !! j = Some t' →
            output_piece b t'.1 t'.2 = player → passed_over b t'
    | None =>
        ∀ t, t ∈ scan_order → output_piece b t.1 t.2 = player → passed_over b t
    end.
Proof.
  intros E. exists (first_offer b player scan_order).
  eexists _, _, _. split; [| split; [| split; [| split; [| split]]]].
  - by apply move_to_centre_algorithm_ok.
  - vm_compute. reflexivity.
  - vm_compute. reflexivity.
  - vm_compute. reflexivity.
  - vm_compute. reflexivity.
  - destruct (first_offer b player scan_order) as [m |] eqn:Ef.
    + destruct (first_offer_Some _ _ _ _ Ef) as (i & t & d & Hi & Hp & Hd & Hm & Hb).
      exists i, t, d. repeat split; try done.
      * destruct t as [c ro]. by apply centre_step_closer.
      * by apply centre_step_axis.
    + by apply first_offer_None.
Qed.

(** ** The greedy policy *)

Lemma first_elimination_ok (w : World) (r : nat) (b : Board) (e player : string)
    (moves : list Move) :
  heap w !! r = Some b →
  ∃ w', first_elimination r e player moves w
          = Some (List.find (eliminates b e) moves, w') ∧
        heap w' !! r = Some b ∧ gen w' = gen w ∧ shrunk w' = shrunk w.
Proof.
  revert w. induction moves as [| m rest IH]; intros w E; simpl.
  - by exists w.
  - run (check_move_for_elimination_ok _ _ _ e player m E).
    destruct (eliminates b e m).
    + eexists. split; [done |]. simpl. split; [by apply lookup_app_l_Some | done].
    + destruct (IH (after_simulation w b e m)) as (w' & Hf & Hh & Hg & Hs);
        [by apply lookup_app_l_Some |].
      by exists w'.
Qed.

(** What [check_easy_elimination] returns: the empty list when there is no
    legal move; else a list of two or three entries, the first eliminating
    move if there is one, then the result of [move_to_centre_algorithm], which
    may be [None], then a randomly drawn legal move. *)
Lemma check_easy_elimination_ok (w : World) (r : nat) (b : Board) (e player : string) :
  heap w !! r = Some b →
  (generate_moves b (acting_colour e) = [] →
     check_easy_elimination r e player w = Some ([], w)) ∧
  (generate_moves b (acting_colour e) ≠ [] →
     ∃ m w', m ∈ generate_moves b (acting_colour e) ∧
       check_easy_elimination r e player w =
         Some (match List.find (eliminates b e) (generate_moves b (acting_colour e)) with
               | Some x => [Some x]
               | None => []
               end ++ [first_offer b player scan_order; Some m], w')).
Proof.
  intros E. unfold check_easy_elimination.
  assert (Hg : (if String.eqb e "@" then call_generate_moves r "W"
                else call_generate_moves r "B") w
               = Some (generate_moves b (acting_colour e), w)).
  { unfold acting_colour. destruct (String.eqb e "@"); by apply call_generate_moves_ok. }
  run Hg.
  destruct (generate_moves b (acting_colour e)) as [| m0 ms] eqn:Em.
  - split; [done | by intros []].
  - split; [done | intros _].
    change (negb (Nat.eqb (length (m0 :: ms)) 0)) with true. cbv iota.
    destruct (first_elimination_ok w r b e player (m0 :: ms) E)
      as (w1 & Hf & Hh & _ & _).
    run Hf.
    run (move_to_centre_algorithm_ok _ _ _ e player (m0 :: ms) Hh).
    match goal with
    | |- context [ (call_randint _ _ ≫= λ i, py_index _ i ≫= ?k) w1 ] =>
        destruct (random_pick_ok (m0 :: ms) k w1) as (x & w2 & Hx & _ & _ & Hp); [done |]
    end.
    exists x, w2. split; [done |]. rewrite Hp. simpl.
    destruct (List.find (eliminates b e) (m0 :: ms)); simpl; by rewrite <- ?app_assoc.
Qed.

End Facts.

(** * The code on concrete positions and games *)

Import Samples.

Lemma model_randint_range (lo hi : Z) (g : Z) :
  lo ≤ hi → lo ≤ (@randint Model.collaborators lo hi g).1 ≤ hi.
Proof.
  intros Hle. simpl. unfold Model.randint. simpl.
  pose proof (Z.mod_pos_bound (Model.next_seed g) (hi - lo + 1)). lia.
Qed.

Lemma check_move_for_elimination_detects_witness :
  ∃ v w',
    check_move_for_elimination 0 "@" "O" flank_move (Model.world_of flank_board) = Some (v, w') ∧
    (v = true ↔
       (count (simulated flank_board "@" flank_move) (search_key "@") + 1
          ≤ count flank_board (search_key "@"))%nat) ∧
    (v = false →
       count (simulated flank_board "@" flank_move) (search_key "@")
         = count flank_board (search_key "@")).
Proof.
  apply (check_move_for_elimination_detects (Model.world_of flank_board) 0 flank_board
           "@" "O" flank_move); [reflexivity | vm_compute; lia].
Defined.

Lemma simulations_leave_board_witness :
  (∃ v w',
     check_move_for_elimination 0 "@" "O" flank_move (Model.world_of flank_board) = Some (v, w') ∧
     heap w' !! 0%nat = Some flank_board ∧
     take (length (heap (Model.world_of flank_board))) (heap w') = heap (Model.world_of flank_board)) ∧
  (∃ v w',
     evalutate_this_move 0 "@" "O" flank_move (Model.world_of flank_board) = Some (v, w') ∧
     heap w' !! 0%nat = Some flank_board ∧
     take (length (heap (Model.world_of flank_board))) (heap w') = heap (Model.world_of flank_board)).
Proof.
  apply (simulations_leave_board (Model.world_of flank_board) 0 flank_board "@" "O" flank_move).
  reflexivity.
Defined.

Lemma do_random_move_forfeit_witness :
  (∃ res w', do_random_move 0 "@" (Model.world_of lone_board) = Some (res, w') ∧
     (res = None ↔ generate_moves lone_board (acting_colour "@") = []) ∧
     (∀ a, res = Some a →
           ∃ m, m ∈ generate_moves lone_board (acting_colour "@") ∧
                a = Action_new lone_board "@" None (Some m))) ∧
  (∃ self' out w', action white_moving 2 (Model.world_of lone_board) = Some ((self', out), w') ∧
     (out = None ↔ generate_moves lone_board (acting_colour "@") = []) ∧
     (∀ x, out = Some x →
           ∃ m, m ∈ generate_moves lone_board (acting_colour "@") ∧
                x = return_action (Action_new lone_board "@" None (Some m)))).
Proof.
  apply (@do_random_move_forfeit Model.collaborators model_randint_range white_moving 2
           (Model.world_of lone_board) lone_board); reflexivity.
Defined.

Lemma phase_placing_then_moving_witness :
  ∃ ps w', game "white" long_game Model.empty_world = Some (ps, w') ∧
    length ps = S (length long_game) ∧
    (∀ p, p ∈ ps → phase p = "placing" ∨ phase p = "moving") ∧
    (∀ i j p q, (i ≤ j)%nat → ps !! i = Some p → ps !! j = Some q →
                phase p = "moving" → phase q = "moving").
Proof.
  apply (@phase_placing_then_moving Model.collaborators model_randint_range "white" long_game Model.empty_world).
Defined.

Lemma phase_switch_at_twelfth_action_witness :
  ∃ ps w', game "white" twelve_to_eleven Model.empty_world = Some (ps, w') ∧
    ∀ n p, ps !! n = Some p →
      total_actions p = own_turns (take n twelve_to_eleven) ∧
      (phase p = "moving" ↔ 12 ≤ own_turns (take n twelve_to_eleven)) ∧
      (phase p = "placing" ↔ own_turns (take n twelve_to_eleven) < 12).
Proof.
  apply (@phase_switch_at_twelfth_action Model.collaborators model_randint_range "white"
           twelve_to_eleven Model.empty_world).
Defined.

Lemma shrink_schedule_witness :
  ∃ ps w', game "white" long_game Model.empty_world = Some (ps, w') ∧
    shrunk w' = [0%nat; 0%nat] ∧
    due_counters ps = [127; 191] ∧
    due_counters ps `sublist_of` [127; 191].
Proof.
  destruct (@shrink_schedule Model.collaborators model_randint_range "white" long_game
              Model.empty_world) as (ps & w' & Hg & Hs & Hc).
  exists ps, w'. split; [exact Hg |].
  assert (Hps : fst <$> game "white" long_game Model.empty_world = Some ps)
    by (by rewrite Hg).
  vm_compute in Hps. injection Hps as <-.
  split; [rewrite Hs; vm_compute; reflexivity |].
  split; [vm_compute; reflexivity |].
  apply Hc. vm_compute. reflexivity.
Defined.

Lemma move_to_centre_algorithm_first_offer_witness :
  ∃ res l0 l1 l2,
    move_to_centre_algorithm 0 "@" "O" [] (Model.world_of flank_board)
      = Some (res, Model.world_of flank_board) ∧
    find_tiles_of_rank 0 = Some l0 ∧ find_tiles_of_rank 1 = Some l1 ∧
    find_tiles_of_rank 2 = Some l2 ∧ scan_order = l0 ++ l1 ++ l2 ∧
    match res with
    | Some m =>
        ∃ (i : nat) (t d : Z * Z),
          scan_order !! i = Some t ∧
          output_piece flank_board t.1 t.2 = "O" ∧
          centre_step t.1 t.2 = Some d ∧
          Move_new flank_board t.1 t.2 d.1 d.2 = Some m ∧
          dist2 d < dist2 t ∧
          (((t.1 < 3 ∨ 5 < t.1) ∧ d.2 = t.2 ∧ (d.1 = t.1 + 1 ∨ d.1 = t.1 - 1)) ∨
           (3 ≤ t.1 ≤ 5 ∧ d.1 = t.1 ∧ (d.2 = t.2 + 1 ∨ d.2 = t.2 - 1))) ∧
          ∀ (j : nat) (t' : Z * Z), (j < i)%nat → scan_order !! j = Some t' →
            output_piece flank_board t'.1 t'.2 = "O" →
            passed_over flank_board t'
    | None =>
        ∀ t, t ∈ scan_order → output_piece flank_board t.1 t.2 = "O" →
             passed_over flank_board t
    end.
Proof.
  apply (move_to_centre_algorithm_first_offer (Model.world_of flank_board) 0 flank_board
           "@" "O" []).
  reflexivity.
Defined.

(** ** Where the code departs from the claims *)

(** C1, as stated, fails: a game that ends early in the moving phase never
    shrinks the board, and calls of [action] that repeat turn 127 shrink it
    once each, three times in all with the call for turn 191. *)
Lemma shrink_not_exactly_twice :
  ¬ fires_exactly_twice "white" short_game Model.empty_world ∧
  ¬ fires_exactly_twice "white" repeated_turn Model.empty_world ∧
  (∃ ps w', game "white" repeated_turn Model.empty_world = Some (ps, w') ∧
     due_counters ps = [127; 127; 191] ∧ shrunk w' = [0%nat; 0%nat; 0%nat]).
Proof.
  split; [| split].
  - intros Hc.
    destruct (@game_ok Model.collaborators model_randint_range "white" short_game
                Model.empty_world) as (w' & Hg & _).
    destruct (Hc _ _ Hg) as [Hd _]. vm_compute in Hd. discriminate.
  - intros Hc.
    destruct (@game_ok Model.collaborators model_randint_range "white" repeated_turn
                Model.empty_world) as (w' & Hg & _).
    destruct (Hc _ _ Hg) as [Hd _]. vm_compute in Hd. discriminate.
  - destruct (@game_ok Model.collaborators model_randint_range "white" repeated_turn
                Model.empty_world) as (w' & Hg & Hs).
    eexists _, w'. split; [exact Hg |].
    split; [vm_compute; reflexivity |]. rewrite Hs. vm_compute. reflexivity.
Qed.

(** C5, as stated, fails: after white's twelfth call of [action] the phase is
    ['moving'] although black has placed eleven pieces. *)
Lemma white_moves_before_black_has_placed :
  ¬ switches_when_both_placed "white" twelve_to_eleven Model.empty_world ∧
  (∃ ps w' p, game "white" twelve_to_eleven Model.empty_world = Some (ps, w') ∧
     last ps = Some p ∧ phase p = "moving" ∧
     own_turns twelve_to_eleven = 12 ∧ opponent_turns twelve_to_eleven = 11).
Proof.
  destruct (@game_ok Model.collaborators model_randint_range "white" twelve_to_eleven
              Model.empty_world) as (w' & Hg & _).
  split.
  - intros Hc.
    destruct (Hc _ _ Hg (length twelve_to_eleven) (Player_mk "@" "O" 0 12 0 "moving"))
      as [Hm _]; [vm_compute; reflexivity |].
    destruct (Hm eq_refl) as [_ Ho]. vm_compute in Ho. by apply Ho.
  - eexists _, w', _. split; [exact Hg |].
    split; [vm_compute; reflexivity |].
    repeat split; vm_compute; reflexivity.
Qed.

(** C3, as stated, fails: with the column step of the only white piece
    blocked, the code returns nothing, though the piece has a valid row step
    that brings it nearer the centre, which the policy of the spec returns. *)
Lemma blocked_column_is_passed_over :
  ¬ centralizes_as_claimed 0 blocked_board "@" "O" [] (Model.world_of blocked_board) ∧
  fst <$> move_to_centre_algorithm 0 "@" "O" [] (Model.world_of blocked_board)
    = Some None ∧
  claimed_move_to_centre blocked_board "O" = Some ((1, 1), (1, 2)).
Proof.
  split; [| split].
  - unfold centralizes_as_claimed. intros Hc.
    apply (f_equal (fmap fst)) in Hc. vm_compute in Hc. discriminate.
  - vm_compute. reflexivity.
  - vm_compute. reflexivity.
Qed.

(** C7: on the flanking position white has two pieces and black none after
    the move, a difference of 2; [evalutate_this_move] returns 1, black's
    piece being counted on the board before the move. *)
Theorem evalutate_this_move_counts_before :
  fst <$> evalutate_this_move 0 "@" "O" flank_move (Model.world_of flank_board) = Some 1 ∧
  count (simulated flank_board "@" flank_move) "O" = 2%nat ∧
  count (simulated flank_board "@" flank_move) "@" = 0%nat ∧
  count flank_board "@" = 1%nat.
Proof. repeat split; vm_compute; reflexivity. Qed.

(** C2: [check_easy_elimination] returns a list, not one move.  For a lone
    white piece on a central cell the list is [None] followed by the random
    move; on the flanking position it is the eliminating move, the
    centralizing move and the random move. *)
Theorem check_easy_elimination_returns_list :
  fst <$> check_easy_elimination 0 "@" "O" (Model.world_of lone_board)
    = Some [None; Some ((3, 3), (3, 2))] ∧
  fst <$> check_easy_elimination 0 "@" "O" (Model.world_of flank_board)
    = Some [Some flank_move; Some ((2, 2), (3, 2)); Some ((2, 2), (2, 1))].
Proof. split; vm_compute; reflexivity. Qed.

(** * Further properties of the two modules *)

Tactic Notation "run" uconstr(known_result) :=
  rewrite (bind_Some _ _ _ _ _ known_result).

(** ** The table of rings *)

(** X1: a rank outside 0..3 is a missing key of the table, and no other rank
    is. *)
Theorem find_tiles_of_rank_missing (rank : Z) :
  find_tiles_of_rank rank = None ↔ ¬ (0 ≤ rank ≤ 3).
Proof.
  split.
  - intros Hn Hr. destruct (rank_cases rank Hr) as [-> | [-> | [-> | ->]]];
      vm_compute in Hn; discriminate.
  - intros Hr. unfold find_tiles_of_rank, tile_dict. simpl.
    rewrite !lookup_insert_ne by lia. apply lookup_empty.
Qed.

Lemma grid_cells_spec (t : Z * Z) : in_grid t → t ∈ grid_cells.
Proof.
  destruct t as [c r]. unfold in_grid. simpl. intros [Hc Hr].
  unfold grid_cells. apply list_elem_of_bind. exists c. split; [| apply elem_of_seqZ; lia].
  apply list_elem_of_bind. exists r. split; [| apply elem_of_seqZ; lia].
  by apply list_elem_of_singleton.
Qed.

Lemma ring_fits_spec (k : Z) (t : Z * Z) :
  ring_fits k t = true → in_grid t ∧ (t ∉ corner_cells) ∧ ring_of t = k.
Proof.
  unfold ring_fits. rewrite andb_true_iff, Z.eqb_eq. intros [Ht Hk].
  apply tile_ok_spec in Ht. tauto.
Qed.

(** X2: the four lists are the four rings of the grid: a cell is listed under
    rank [k] exactly when it lies in the grid, is no corner and has distance
    [k] from the nearest edge.  So every cell but the corners is listed, under
    one rank only. *)
Theorem find_tiles_of_rank_ring (k : Z) (t : Z * Z) :
  0 ≤ k ≤ 3 →
  (∃ l, find_tiles_of_rank k = Some l ∧ t ∈ l) ↔
  (in_grid t ∧ (t ∉ corner_cells) ∧ ring_of t = k).
Proof.
  intros Hk. split.
  - intros (l & Hl & Ht). apply ring_fits_spec.
    assert (Hall : forallb (ring_fits k) l = true).
    { destruct (rank_cases k Hk) as [-> | [-> | [-> | ->]]];
        vm_compute in Hl; injection Hl as <-; vm_compute; reflexivity. }
    rewrite forallb_forall in Hall. by apply Hall, list_elem_of_In.
  - intros (Hg & Hc & Hr).
    assert (Hall : forallb ring_listed grid_cells = true) by (vm_compute; reflexivity).
    rewrite forallb_forall in Hall.
    specialize (Hall t (proj1 (list_elem_of_In _ _) (grid_cells_spec t Hg))).
    unfold ring_listed in Hall. rewrite Hr in Hall.
    apply orb_true_iff in Hall as [Hcorner | Hin].
    + by apply bool_decide_eq_true in Hcorner.
    + destruct (find_tiles_of_rank k) as [l |]; [| done].
      exists l. split; [done |]. by apply bool_decide_eq_true in Hin.
Qed.

(** ** One step towards the centre *)

Lemma centre_step_None (col row : Z) :
  centre_step col row = None ↔ in_block (col, row).
Proof.
  unfold centre_step, in_block. simpl.
  destruct (Z.gtb_spec col 5); [split; [done | lia] |].
  destruct (Z.ltb_spec col 3); [split; [done | lia] |].
  destruct (Z.gtb_spec row 5); [split; [done | lia] |].
  destruct (Z.ltb_spec row 3); [split; [done | lia] |].
  split; [lia | done].
Qed.

Lemma centre_step_grid (col row : Z) (d : Z * Z) :
  centre_step col row = Some d → in_grid (col, row) → in_grid d.
Proof.
  unfold centre_step, in_grid. simpl.
  destruct (Z.gtb_spec col 5); [intros [= <-]; simpl; lia |].
  destruct (Z.ltb_spec col 3); [intros [= <-]; simpl; lia |].
  destruct (Z.gtb_spec row 5); [intros [= <-]; simpl; lia |].
  destruct (Z.ltb_spec row 3); [intros [= <-]; simpl; lia | done].
Qed.

Lemma walk_check :
  forallb (λ t, bool_decide (3 ≤ (walk 6 t).1) && bool_decide ((walk 6 t).1 ≤ 5) &&
                bool_decide (3 ≤ (walk 6 t).2) && bool_decide ((walk 6 t).2 ≤ 5))
          grid_cells = true.
Proof. vm_compute. reflexivity. Qed.

(** X4: followed from any cell of the grid, the steps [move_towards_centre]
    proposes end after at most six steps, on a cell of columns 3..5 and rows
    3..5, for which no step is proposed. *)
Theorem walk_reaches_block (t : Z * Z) :
  in_grid t →
  in_block (walk 6 t) ∧ centre_step (walk 6 t).1 (walk 6 t).2 = None.
Proof.
  intros Hg. assert (Hb : in_block (walk 6 t)).
  { pose proof walk_check as Hall. rewrite forallb_forall in Hall.
    specialize (Hall t (proj1 (list_elem_of_In _ _) (grid_cells_spec t Hg))).
    rewrite !andb_true_iff, !bool_decide_eq_true in Hall. unfold in_block. lia. }
  split; [done |]. apply centre_step_None. by destruct (walk 6 t).
Qed.

Lemma walk_reaches_block_witness :
  in_block (walk 6 (0, 7)) ∧ centre_step (walk 6 (0, 7)).1 (walk 6 (0, 7)).2 = None.
Proof. apply (walk_reaches_block (0, 7)). unfold in_grid. simpl. lia. Defined.

Section MoreFacts.
Context `{Collaborators}.

(** X3: [move_towards_centre] leaves the world as it is.  A destination it
    returns is a valid move of the piece by one cell, strictly nearer the
    centre, inside the grid when the piece is, and along the column axis
    whenever the column is outside 3..5.  It returns nothing for every piece
    on columns 3..5 and rows 3..5, and elsewhere only when the one step it
    proposes is invalid. *)
Theorem move_towards_centre_result (w : World) (r : nat) (b : Board)
    (col row : Z) (e : string) :
  heap w !! r = Some b →
  ∃ res, move_towards_centre r col row e w = Some (res, w) ∧
    (∀ d, res = Some d →
       is_Some (Move_new b col row d.1 d.2) ∧
       Z.abs (d.1 - col) + Z.abs (d.2 - row) = 1 ∧
       dist2 d < dist2 (col, row) ∧
       (in_grid (col, row) → in_grid d) ∧
       (col < 3 ∨ 5 < col → d.2 = row)) ∧
    (in_block (col, row) → res = None) ∧
    (res = None → ¬ in_block (col, row) →
       ∃ d, centre_step col row = Some d ∧ Move_new b col row d.1 d.2 = None).
Proof.
  intros E. eexists. split; [by apply move_towards_centre_ok |].
  destruct (centre_step col row) as [d |] eqn:Ed.
  - pose proof (centre_step_closer _ _ _ Ed) as Hcl.
    pose proof (centre_step_axis _ _ _ Ed) as Hax.
    assert (Hnb : ¬ in_block (col, row)).
    { intros Hb. apply centre_step_None in Hb. congruence. }
    destruct (Move_new b col row d.1 d.2) as [m |] eqn:Em.
    + split; [| split; [done | done]].
      intros d' [= <-]. rewrite Em. split; [by eexists |].
      split; [lia |]. split; [done |].
      split; [by apply centre_step_grid | lia].
    + split; [done |]. split; [done |]. intros _ _. by exists d.
  - apply centre_step_None in Ed.
    split; [done |]. split; [done |]. intros _ Hnb. done.
Qed.

(** ** The two simulations, in full *)

(** X5: [check_move_for_elimination] ends with one more board object, the
    copy on which the move was applied, and has touched neither the random
    state nor any other board; its answer does not depend on [player], and is
    [False] exactly when the two counts are equal, so it is [True] also for a
    count that grew. *)
Theorem check_move_for_elimination_effects (w : World) (r : nat) (b : Board)
    (e : string) (m : Move) :
  heap w !! r = Some b →
  ∃ v,
    (∀ player, check_move_for_elimination r e player m w =
       Some (v, World_mk (heap w ++ [simulated b e m]) (gen w) (shrunk w))) ∧
    (v = false ↔ count (simulated b e m) (search_key e) = count b (search_key e)).
Proof.
  intros E. exists (eliminates b e m). split.
  - intros player. by apply check_move_for_elimination_ok.
  - unfold eliminates.
    destruct (Nat.eqb_spec (count (simulated b e m) (search_key e))
                           (count b (search_key e))); simpl; split; done.
Qed.

(** X6: [evalutate_this_move] returns the player's count on the simulated
    board minus the opponent's count on the board it was given, and ends with
    one more board object, the simulated copy.  Two moves that leave the
    player the same number of pieces get the same score, whatever they
    capture. *)
Theorem evalutate_this_move_value (w : World) (r : nat) (b : Board)
    (e player : string) (m : Move) :
  heap w !! r = Some b →
  evalutate_this_move r e player m w =
    Some (Z.of_nat (count (simulated b e m) player) - Z.of_nat (count b (search_key e)),
          World_mk (heap w ++ [simulated b e m]) (gen w) (shrunk w)) ∧
  ∀ m', count (simulated b e m') player = count (simulated b e m) player →
        fst <$> evalutate_this_move r e player m' w
          = fst <$> evalutate_this_move r e player m w.
Proof.
  intros E. split; [by apply evalutate_this_move_ok |].
  intros m' Hc. rewrite !(evalutate_this_move_ok _ _ _ _ _ _ E). simpl. by rewrite Hc.
Qed.

End MoreFacts.

(** ** Drawing a move *)

Section MoreRandom.
Context `{Collaborators}.
Hypothesis randint_range : ∀ lo hi g, lo ≤ hi → lo ≤ (randint lo hi g).1 ≤ hi.

Lemma random_pick_exact {A B : Type} (l : list A) (k : A → M B) (w : World) :
  l ≠ [] →
  ∃ x, l !! Z.to_nat (randint 0 (Z.of_nat (length l) - 1) (gen w)).1 = Some x ∧
    (i ← call_randint 0 (Z.of_nat (length l) - 1); x ← py_index l i; k x) w
      = k x (World_mk (heap w) (randint 0 (Z.of_nat (length l) - 1) (gen w)).2 (shrunk w)).
Proof.
  intros Hl. assert (0 < length l)%nat by (destruct l; [done | simpl; lia]).
  pose proof (randint_range 0 (Z.of_nat (length l) - 1) (gen w)) as Hr.
  unfold mbind at 1, M_bind at 1, call_randint. rewrite decide_True by lia.
  destruct (randint 0 (Z.of_nat (length l) - 1) (gen w)) as [z g] eqn:Ez.
  simpl in Hr. simpl.
  destruct (lookup_lt_is_Some_2 l (Z.to_nat z)) as [x Hx]; [lia |].
  exists x. split; [done |].
  unfold mbind, M_bind, py_index.
  destruct (Z.ltb_spec z 0) as [? | _]; [lia |].
  destruct (Z.ltb_spec z 0) as [? | _]; [lia |].
  by rewrite Hx.
Qed.

Lemma do_random_move_exact (w : World) (r : nat) (b : Board) (e : string) :
  heap w !! r = Some b →
  (generate_moves b (acting_colour e) = [] →
     do_random_move r e w = Some (None, w)) ∧
  (generate_moves b (acting_colour e) ≠ [] →
     ∃ m,
       generate_moves b (acting_colour e)
         !! Z.to_nat (randint 0 (Z.of_nat (length (generate_moves b (acting_colour e))) - 1)
                        (gen w)).1 = Some m ∧
       do_random_move r e w =
         Some (Some (Action_new b e None (Some m)),
               World_mk (heap w)
                 (randint 0 (Z.of_nat (length (generate_moves b (acting_colour e))) - 1)
                    (gen w)).2
                 (shrunk w))).
Proof.
  intros E. unfold do_random_move.
  assert (Hg : (if String.eqb e "@" then call_generate_moves r "W"
                else call_generate_moves r "B") w
               = Some (generate_moves b (acting_colour e), w)).
  { unfold acting_colour. destruct (String.eqb e "@"); by apply call_generate_moves_ok. }
  run Hg.
  destruct (generate_moves b (acting_colour e)) as [| m0 ms] eqn:Em.
  - split; [done | by intros []].
  - split; [done | intros _].
    change (negb (Nat.eqb (length (m0 :: ms)) 0)) with true. cbv iota.
    match goal with
    | |- context [ (call_randint _ _ ≫= λ i, py_index _ i ≫= ?k) w ] =>
        destruct (random_pick_exact (m0 :: ms) k w) as (x & Hx & Hp); [done |]
    end.
    exists x. split; [exact Hx |]. rewrite Hp.
    match goal with
    | |- context [ (make_Action _ _ _ _ ≫= _) ?w1 ] =>
        by run (make_Action_ok w1 r b e None (Some x) E)
    end.
Qed.

(** X7: [do_random_move] is a function of the board and the random state.
    Without a legal move it returns [None] and draws nothing; with [n] legal
    moves it draws once, [randint(0, n-1)], returns the [Action] on the move
    of that index in generator order, and changes nothing but the random
    state. *)
Theorem do_random_move_draw (w : World) (r : nat) (b : Board) (e : string) :
  heap w !! r = Some b →
  (generate_moves b (acting_colour e) = [] →
     do_random_move r e w = Some (None, w)) ∧
  (generate_moves b (acting_colour e) ≠ [] →
     ∃ m,
       generate_moves b (acting_colour e)
         !! Z.to_nat (randint 0 (Z.of_nat (length (generate_moves b (acting_colour e))) - 1)
                        (gen w)).1 = Some m ∧
       do_random_move r e w =
         Some (Some (Action_new b e None (Some m)),
               World_mk (heap w)
                 (randint 0 (Z.of_nat (length (generate_moves b (acting_colour e))) - 1)
                    (gen w)).2
                 (shrunk w))).
Proof. exact (do_random_move_exact w r b e). Qed.

(** X8: [generate_move] returns the moves of the acting colour, white's when
    the enemy is ['@'] and black's for every other enemy character, and leaves
    the world as it is; [do_random_move] forfeits exactly when that list is
    empty. *)
Theorem generate_move_list (w : World) (r : nat) (b : Board) (e : string) :
  heap w !! r = Some b →
  ∃ moves, generate_move r e w = Some (moves, w) ∧
    (e = "@" → moves = generate_moves b "W") ∧
    (e ≠ "@" → moves = generate_moves b "B") ∧
    (fst <$> do_random_move r e w = Some None ↔ moves = []).
Proof.
  intros E. exists (generate_moves b (acting_colour e)).
  destruct (do_random_move_exact w r b e E) as [Hnone Hsome].
  unfold generate_move, acting_colour in *.
  destruct (String.eqb_spec e "@") as [-> | Hne].
  - split; [by apply call_generate_moves_ok |]. split; [done |]. split; [done |].
    split.
    + intros Hd. destruct (generate_moves b "W") as [| m0 ms] eqn:Em; [done |].
      destruct Hsome as (m & _ & Hm); [done |]. rewrite Hm in Hd. discriminate.
    + intros Hm. by rewrite (Hnone Hm).
  - split; [by apply call_generate_moves_ok |]. split; [done |]. split; [done |].
    split.
    + intros Hd. destruct (generate_moves b "B") as [| m0 ms] eqn:Em; [done |].
      destruct Hsome as (m & _ & Hm); [done |]. rewrite Hm in Hd. discriminate.
    + intros Hm. by rewrite (Hnone Hm).
Qed.

(** ** The greedy policy, in full *)

Lemma find_first {A : Type} (f : A → bool) (l : list A) (x : A) :
  List.find f l = Some x →
  ∃ i : nat, l !! i = Some x ∧ f x = true ∧
    ∀ (j : nat) (y : A), (j < i)%nat → l !! j = Some y → f y = false.
Proof.
  induction l as [| a rest IH]; simpl; [done |].
  destruct (f a) eqn:Ea.
  - intros [= <-]. exists 0%nat. repeat split; try done. intros j y Hj. lia.
  - intros Hf. destruct (IH Hf) as (i & Hi & Hx & Hb).
    exists (S i). repeat split; try done.
    intros [| j] y Hj Hy; simpl in Hy.
    + by injection Hy as <-.
    + apply (Hb j); [lia | done].
Qed.

Lemma find_nowhere {A : Type} (f : A → bool) (l : list A) :
  List.find f l = None → ∀ y, y ∈ l → f y = false.
Proof.
  intros Hf y Hy. apply list_elem_of_In in Hy. by apply (find_none f l Hf).
Qed.

(** X9: [check_easy_elimination] returns the empty list exactly when there is
    no legal move.  Otherwise it returns two or three entries: the first move
    in generator order that passes [check_move_for_elimination], when there is
    one; then the result of [move_to_centre_algorithm], which may be [None];
    then a legal move drawn at random.  The board it was given is unchanged
    and the board is never shrunk. *)
Theorem check_easy_elimination_shape (w : World) (r : nat) (b : Board)
    (e player : string) :
  heap w !! r = Some b →
  ∃ l w', check_easy_elimination r e player w = Some (l, w') ∧
    heap w' !! r = Some b ∧ shrunk w' = shrunk w ∧
    (l = [] ↔ generate_moves b (acting_colour e) = []) ∧
    (generate_moves b (acting_colour e) ≠ [] →
       ∃ m, m ∈ generate_moves b (acting_colour e) ∧
         ((∃ (x : Move) (i : nat),
             generate_moves b (acting_colour e) !! i = Some x ∧
             eliminates b e x = true ∧
             (∀ (j : nat) (y : Move), (j < i)%nat →
                generate_moves b (acting_colour e) !! j = Some y →
                eliminates b e y = false) ∧
             l = [Some x; first_offer b player scan_order; Some m]) ∨
          ((∀ y, y ∈ generate_moves b (acting_colour e) → eliminates b e y = false) ∧
           l = [first_offer b player scan_order; Some m]))).
Proof.
  intros E. unfold check_easy_elimination.
  assert (Hg : (if String.eqb e "@" then call_generate_moves r "W"
                else call_generate_moves r "B") w
               = Some (generate_moves b (acting_colour e), w)).
  { unfold acting_colour. destruct (String.eqb e "@"); by apply call_generate_moves_ok. }
  run Hg.
  destruct (generate_moves b (acting_colour e)) as [| m0 ms] eqn:Em.
  - exists [], w. repeat split; try done.
  - change (negb (Nat.eqb (length (m0 :: ms)) 0)) with true. cbv iota.
    destruct (first_elimination_ok w r b e player (m0 :: ms) E)
      as (w1 & Hf & Hh & _ & Hs1).
    run Hf.
    run (move_to_centre_algorithm_ok _ _ _ e player (m0 :: ms) Hh).
    match goal with
    | |- context [ (call_randint _ _ ≫= λ i, py_index _ i ≫= ?k) w1 ] =>
        destruct (random_pick_ok randint_range (m0 :: ms) k w1)
          as (x & w2 & Hx & Hh2 & Hs2 & Hp); [done |]
    end.
    rewrite Hp. eexists _, w2. split; [done |].
    split; [by rewrite Hh2 |]. split; [by rewrite Hs2 |].
    split.
    { split; [| done]. destruct (List.find (eliminates b e) (m0 :: ms)); done. }
    intros _. exists x. split; [done |].
    destruct (List.find (eliminates b e) (m0 :: ms)) as [y |] eqn:Efind.
    + left. destruct (find_first _ _ _ Efind) as (i & Hi & Hy & Hb).
      by exists y, i.
    + right. split; [by apply find_nowhere | done].
Qed.

End MoreRandom.

(** ** The player object, call by call *)

Section MorePlayer.
Context `{Collaborators}.
Hypothesis randint_range : ∀ lo hi g, lo ≤ hi → lo ≤ (randint lo hi g).1 ≤ hi.

(** X10: [Player.__init__] returns for every colour string.  The player
    starts in the placing phase with both counters at 0, on a board object of
    its own: a new last object of the heap holding the empty board, the
    objects before it unchanged.  Only the string ['white'] makes a white
    player; every other string makes a black one. *)
Theorem Player_init_fresh (colour : string) (w : World) :
  ∃ p, Player_init colour w
         = Some (p, World_mk (heap w ++ [BoardState_new]) (gen w) (shrunk w)) ∧
    board p = length (heap w) ∧
    phase p = "placing" ∧ total_actions p = 0 ∧ total_turns p = 0 ∧
    (colour = "white" → piece p = "O" ∧ enemy p = "@") ∧
    (colour ≠ "white" → piece p = "@" ∧ enemy p = "O") ∧
    (∀ colour' p' w', Player_init colour'
                        (World_mk (heap w ++ [BoardState_new]) (gen w) (shrunk w))
                      = Some (p', w') →
       board p' ≠ board p ∧ heap w' !! board p = Some BoardState_new).
Proof.
  assert (Hb : ∀ c n, board (fresh_player c n) = n).
  { intros c n. unfold fresh_player. by destruct (String.eqb c "white"). }
  exists (fresh_player colour (length (heap w))).
  split; [unfold Player_init, fresh_player; by destruct (String.eqb colour "white") |].
  split; [apply Hb |].
  split; [unfold fresh_player; by destruct (String.eqb colour "white") |].
  split; [unfold fresh_player; by destruct (String.eqb colour "white") |].
  split; [unfold fresh_player; by destruct (String.eqb colour "white") |].
  split; [intros ->; done |].
  split.
  { intros Hc. unfold fresh_player.
    by destruct (String.eqb_spec colour "white") as [? | _]. }
  intros colour' p' w' Hinit. rewrite Hb.
  assert (Hp : p' = fresh_player colour' (length (heap w ++ [BoardState_new])) ∧
               heap w' = (heap w ++ [BoardState_new]) ++ [BoardState_new]).
  { unfold Player_init, fresh_player in *.
    destruct (String.eqb colour' "white"); simpl in Hinit;
      by injection Hinit as <- <-. }
  destruct Hp as [-> Hw]. rewrite Hb, Hw, length_app. simpl.
  split; [lia |]. apply lookup_app_l_Some. by rewrite list_lookup_middle.
Qed.

Lemma check_shrink_exact (self : Player) (w : World) (b : Board) :
  heap w !! board self = Some b →
  check_shrink self w =
    Some ((), World_mk (<[board self := settle self b]> (heap w)) (gen w)
                (shrunk w ++ (if due self then [board self] else []))).
Proof.
  intros E. unfold check_shrink, settle, due, moving, threshold.
  assert (Hn : (mret () : M ()) w =
               Some ((), World_mk (<[board self := b]> (heap w)) (gen w) (shrunk w ++ []))).
  { rewrite app_nil_r, (list_insert_id _ _ _ E). by destruct w. }
  destruct (String.eqb (phase self) "moving"); simpl; [| exact Hn].
  destruct (total_turns self =? 127); simpl; [by apply board_shrink_board_ok |].
  destruct (total_turns self =? 191); simpl; [by apply board_shrink_board_ok | exact Hn].
Qed.

Lemma chosen_ok (self : Player) (b : Board) (w : World) :
  heap w !! board self = Some b →
  (if String.eqb (phase self) "placing"
   then call_do_random_place (board self) (enemy self)
   else do_random_move (board self) (enemy self)) w
  = Some ((chosen self b (gen w)).1,
          World_mk (heap w) (chosen self b (gen w)).2 (shrunk w)).
Proof.
  intros E. unfold chosen. destruct (String.eqb (phase self) "placing").
  - unfold call_do_random_place. rewrite E.
    by destruct (do_random_place b (enemy self) (gen w)).
  - destruct (do_random_move_exact randint_range w (board self) b (enemy self) E)
      as [Hnone Hsome].
    destruct (generate_moves b (acting_colour (enemy self))) as [| m0 ms] eqn:Em.
    + rewrite (Hnone eq_refl). by destruct w.
    + destruct Hsome as (m & Hm & Hd); [done |]. rewrite Hd.
      destruct (randint 0 (Z.of_nat (length (m0 :: ms)) - 1) (gen w)) as [i g] eqn:Er.
      simpl in *. by rewrite Hm.
Qed.

Lemma action_exact (self : Player) (turns : Z) (w : World) (b : Board) :
  heap w !! board self = Some b →
  action self turns w =
    Some ((bookkeeping self turns, return_action <$> (chosen self b (gen w)).1),
          World_mk
            (<[board self := settle (bookkeeping self turns)
                               (modify b (chosen self b (gen w)).1 (enemy self))]> (heap w))
            (chosen self b (gen w)).2
            (shrunk w ++ (if due (bookkeeping self turns) then [board self] else []))).
Proof.
  intros E. unfold action.
  assert (Hact : (if String.eqb (phase self) "placing"
     then a ← call_do_random_place (board self) (enemy self);
          board_modify (board self) a (enemy self);; mret a
     else a ← do_random_move (board self) (enemy self);
          board_modify (board self) a (enemy self);; mret a) w
    = Some ((chosen self b (gen w)).1,
            World_mk (<[board self := modify b (chosen self b (gen w)).1 (enemy self)]> (heap w))
                     (chosen self b (gen w)).2 (shrunk w))).
  { pose proof (chosen_ok self b w E) as Hc.
    destruct (String.eqb (phase self) "placing"); run Hc;
      match goal with
      | |- context [ (board_modify _ ?a _ ≫= _) ?w1 ] =>
          by run (board_modify_ok w1 (board self) b a (enemy self) E)
      end. }
  run Hact.
  match goal with
  | |- context [ (check_shrink ?p ≫= _) ?w1 ] =>
      assert (E1 : heap w1 !! board p
                   = Some (modify b (chosen self b (gen w)).1 (enemy self)))
        by (rewrite bookkeeping_board; simpl; apply list_lookup_insert_eq;
            by eapply lookup_lt_Some);
      run (check_shrink_exact p w1 _ E1)
  end.
  simpl. rewrite bookkeeping_board, list_insert_insert_eq.
  by destruct (chosen self b (gen w)).1.
Qed.

(** X11: what [Player.action] does, in full.  It chooses an action, by
    [do_random_place] in the placing phase and by [do_random_move] otherwise,
    applies it to its board, shrinks that board afterwards when the call is
    due, and hands the referee the very action it applied ([None] when none
    was chosen).  No other board object is changed and none is created. *)
Theorem action_effect (self : Player) (turns : Z) (w : World) (b : Board) :
  heap w !! board self = Some b →
  action self turns w =
    Some ((bookkeeping self turns, return_action <$> (chosen self b (gen w)).1),
          World_mk
            (<[board self := settle (bookkeeping self turns)
                               (modify b (chosen self b (gen w)).1 (enemy self))]> (heap w))
            (chosen self b (gen w)).2
            (shrunk w ++ (if due (bookkeeping self turns) then [board self] else []))).
Proof. exact (action_exact self turns w b). Qed.

Lemma update_exact (self : Player) (act : option Reply) (w : World) (b : Board) :
  heap w !! board self = Some b →
  update self act w =
    Some (set_total_turns self (total_turns self + 1),
          World_mk
            (<[board self := settle (set_total_turns self (total_turns self + 1))
                 (modify b (Some (Action_new b (piece self) act None)) (piece self))]>
               (heap w))
            (gen w)
            (shrunk w ++ (if due (set_total_turns self (total_turns self + 1))
                          then [board self] else []))).
Proof.
  intros E. unfold update. simpl board. simpl piece.
  run (make_Action_ok _ _ _ (piece self) act None E).
  run (board_modify_ok _ _ _ (Some (Action_new b (piece self) act None)) (piece self) E).
  match goal with
  | |- context [ (check_shrink ?p ≫= _) ?w1 ] =>
      assert (E1 : heap w1 !! board p
                   = Some (modify b (Some (Action_new b (piece self) act None))
                             (piece self)))
        by (simpl; apply list_lookup_insert_eq; by eapply lookup_lt_Some);
      run (check_shrink_exact p w1 _ E1)
  end.
  simpl. by rewrite list_insert_insert_eq.
Qed.

(** X12: what [Player.update] does, in full.  It adds one to [total_turns]
    and changes no other field, applies the opponent's action to its board
    with its own piece as the enemy, shrinks the board afterwards when the
    call is due, and draws no random number. *)
Theorem update_effect (self : Player) (act : option Reply) (w : World) (b : Board) :
  heap w !! board self = Some b →
  update self act w =
    Some (set_total_turns self (total_turns self + 1),
          World_mk
            (<[board self := settle (set_total_turns self (total_turns self + 1))
                 (modify b (Some (Action_new b (piece self) act None)) (piece self))]>
               (heap w))
            (gen w)
            (shrunk w ++ (if due (set_total_turns self (total_turns self + 1))
                          then [board self] else []))).
Proof. exact (update_exact self act w b). Qed.

End MorePlayer.

(** ** Games, call after call *)

Section MoreGames.
Context `{Collaborators}.
Hypothesis randint_range : ∀ lo hi g, lo ≤ hi → lo ≤ (randint lo hi g).1 ≤ hi.

Lemma same_but_refl (r : nat) (w : World) : same_but r w w.
Proof. by split. Qed.

Lemma same_but_trans (r : nat) (w1 w2 w3 : World) :
  same_but r w1 w2 → same_but r w2 w3 → same_but r w1 w3.
Proof.
  intros [Hl1 Hh1] [Hl2 Hh2]. split; [congruence |].
  intros r' Hr. by rewrite Hh2, Hh1.
Qed.

Lemma same_but_insert (r : nat) (w w' : World) (x : Board) :
  heap w' = <[r:=x]> (heap w) → same_but r w w'.
Proof.
  intros Hw. split; rewrite Hw; [apply length_insert |].
  intros r' Hr. by apply list_lookup_insert_ne.
Qed.

Lemma after_call_identity (self : Player) (c : Call) :
  enemy (after_call self c) = enemy self ∧
  piece (after_call self c) = piece self ∧
  board (after_call self c) = board self.
Proof.
  destruct c as [turns | act]; simpl; [| done].
  unfold bookkeeping. simpl. destruct (String.eqb _ _); [| done].
  by destruct (_ =? 12).
Qed.

Lemma step_frame (self : Player) (c : Call) (w : World) :
  is_Some (heap w !! board self) →
  ∃ w', step self c w = Some (after_call self c, w') ∧
    same_but (board self) w w' ∧ is_Some (heap w' !! board self).
Proof.
  intros [b E]. destruct c as [turns | act]; simpl.
  - run (action_exact randint_range self turns w b E).
    eexists. split; [done |]. split; [by eapply same_but_insert |].
    simpl. apply lookup_lt_is_Some. rewrite length_insert. by eapply lookup_lt_Some.
  - rewrite (update_exact self act w b E).
    eexists. split; [done |]. split; [by eapply same_but_insert |].
    simpl. apply lookup_lt_is_Some. rewrite length_insert. by eapply lookup_lt_Some.
Qed.

(** X13: over any sequence of calls, a player changes no board object but
    its own and creates none, and its [enemy], [piece] and [board] stay what
    the constructor made them.  Two players with different boards never
    disturb each other. *)
Theorem calls_touch_own_board_only (self : Player) (calls : list Call) (w : World) :
  is_Some (heap w !! board self) →
  ∃ ps w', history self calls w = Some (ps, w') ∧
    length (heap w') = length (heap w) ∧
    (∀ r, r ≠ board self → heap w' !! r = heap w !! r) ∧
    (∀ p, p ∈ ps →
       enemy p = enemy self ∧ piece p = piece self ∧ board p = board self).
Proof.
  revert self w. induction calls as [| c rest IH]; intros self w Hv; simpl.
  - exists [], w. split; [done |]. split; [done |]. split; [done |].
    intros p Hp. by apply elem_of_nil in Hp.
  - destruct (step_frame self c w Hv) as (w1 & Hstep & [Hl1 Hh1] & Hv1).
    run Hstep.
    destruct (after_call_identity self c) as (He & Hp & Hb).
    destruct (IH (after_call self c) w1) as (ps & w2 & Hh & Hl2 & Hh2 & Hid);
      [by rewrite Hb |].
    run Hh. exists (after_call self c :: ps), w2.
    split; [done |]. split; [congruence |]. split.
    + intros r Hr. rewrite Hh2 by (by rewrite Hb). by apply Hh1.
    + intros p Hin. apply elem_of_cons in Hin as [-> | Hin]; [done |].
      destruct (Hid p Hin) as (-> & -> & ->). done.
Qed.

Lemma placing_not_due (ps : list Player) :
  Forall (λ p, phase p = "placing") ps → List.filter due ps = [].
Proof.
  induction 1 as [| p rest Hp _ IH]; [done |].
  cbn [List.filter]. unfold due at 1, moving. by rewrite Hp.
Qed.

Lemma own_turns_take_le (calls : list Call) (n : nat) :
  own_turns (take n calls) ≤ own_turns calls.
Proof.
  destruct (decide (n ≤ length calls)%nat) as [Hn | Hn].
  - rewrite <- (take_ge calls (length calls)) at 2 by lia.
    by apply own_turns_take_mono.
  - rewrite take_ge by lia. lia.
Qed.

(** X14: while the player has made fewer than twelve actions of its own it is
    in the placing phase and never shrinks its board, whatever turn numbers
    the calls carry and however many updates arrive. *)
Theorem placing_never_shrinks (colour : string) (calls : list Call) (w : World) :
  own_turns calls < 12 →
  ∃ ps w', game colour calls w = Some (ps, w') ∧
    shrunk w' = shrunk w ∧
    ∀ p, p ∈ ps → phase p = "placing".
Proof.
  intros Hlt.
  destruct (game_ok randint_range colour calls w) as (w' & Hg & Hs).
  eexists _, w'. split; [exact Hg |].
  assert (Hall : Forall (λ p, phase p = "placing")
                   (fresh_player colour (length (heap w))
                      :: states (fresh_player colour (length (heap w))) calls)).
  { apply Forall_forall. intros p Hp. apply list_elem_of_lookup in Hp as [n Hn].
    apply game_state_counted in Hn.
    apply (counted_placing _ _ Hn). pose proof (own_turns_take_le calls n). lia. }
  split.
  - rewrite Hs, (placing_not_due _ Hall). apply app_nil_r.
  - by apply Forall_forall.
Qed.

Lemma states_app (self : Player) (l1 l2 : list Call) :
  states self (l1 ++ l2) = states self l1 ++ states (foldl after_call self l1) l2.
Proof.
  revert self. induction l1 as [| c rest IH]; intros self; simpl; [done |].
  by rewrite IH.
Qed.

(** X15: the twelfth action of a player switches it to the moving phase with
    the turn counter at 0, its turn argument discarded, and does not shrink
    the board, not even when called with turn 127 or 191. *)
Theorem switch_discards_turns (colour : string) (calls : list Call) (turns : Z)
    (w : World) :
  own_turns calls = 11 →
  ∃ ps p w', game colour (calls ++ [CallAction turns]) w = Some (ps, w') ∧
    last ps = Some p ∧
    phase p = "moving" ∧ total_turns p = 0 ∧ total_actions p = 12 ∧
    shrunk w' = shrunk w.
Proof.
  intros Hown.
  destruct (game_ok randint_range colour (calls ++ [CallAction turns]) w)
    as (w' & Hg & Hs).
  set (p0 := fresh_player colour (length (heap w))) in *.
  pose proof (foldl_counted calls p0 0 (fresh_player_counted _ _)) as Hc.
  rewrite Z.add_0_l, Hown in Hc.
  destruct Hc as [Ha [[Hph _] | [_ ?]]]; [| lia].
  set (q := foldl after_call p0 calls) in *.
  assert (Hlast : bookkeeping q turns
                  = Player_mk (enemy q) (piece q) (board q) 12 0 "moving").
  { unfold bookkeeping. simpl. rewrite Hph, Ha. done. }
  eexists _, (bookkeeping q turns), w'. split; [exact Hg |].
  rewrite states_app in *. simpl states in *. fold q in Hs |- *.
  split; [by rewrite app_comm_cons, last_snoc |].
  rewrite Hlast. simpl. repeat split; try done.
  rewrite Hs. cbn [List.filter].
  assert (Hd0 : due p0 = false) by (subst p0; unfold fresh_player;
    by destruct (String.eqb colour "white")).
  rewrite Hd0, List.filter_app.
  assert (Hpl : Forall (λ p, phase p = "placing") (states p0 calls)).
  { apply Forall_forall. intros p Hp. apply list_elem_of_lookup in Hp as [n Hn].
    assert (Hn' : (p0 :: states p0 calls) !! S n = Some p) by done.
    apply game_state_counted in Hn'.
    apply (counted_placing _ _ Hn'). pose proof (own_turns_take_le calls (S n)). lia. }
  rewrite (placing_not_due _ Hpl). simpl. rewrite Hlast. simpl.
  by rewrite app_nil_r.
Qed.

End MoreGames.

(** ** Rounds of the referee *)

Lemma filter_threshold_none (l : list Z) :
  (∀ x, x ∈ l → x ≠ 127 ∧ x ≠ 191) → List.filter threshold l = [].
Proof.
  induction l as [| x rest IH]; intros Hl; [done |].
  cbn [List.filter]. destruct (threshold x) eqn:Et.
  - apply threshold_cases in Et. destruct (Hl x); [by left | lia].
  - apply IH. intros y Hy. apply Hl. by right.
Qed.

Lemma filter_threshold_range (a n : Z) :
  (127 < a ∨ a + n ≤ 127) → (191 < a ∨ a + n ≤ 191) →
  List.filter threshold (seqZ a n) = [].
Proof.
  intros H1 H2. apply filter_threshold_none. intros x Hx.
  apply elem_of_seqZ in Hx. lia.
Qed.

(** The thresholds met by a run of consecutive counter values. *)
Lemma filter_threshold_seqZ (t len : Z) :
  t ≤ 127 → 191 < t + len →
  List.filter threshold (seqZ t len) = [127; 191].
Proof.
  intros Ht Hlen.
  replace len with ((127 - t) + (1 + (63 + (1 + (t + len - 192))))) by lia.
  rewrite (seqZ_app t) by lia. replace (t + (127 - t)) with 127 by lia.
  rewrite (seqZ_app 127) by lia. rewrite (seqZ_app (127 + 1)) by lia.
  rewrite (seqZ_app (127 + 1 + 63)) by lia.
  rewrite !List.filter_app.
  rewrite (filter_threshold_range t) by lia.
  rewrite (filter_threshold_range (127 + 1)) by lia.
  rewrite (filter_threshold_range (127 + 1 + 63 + 1)) by lia.
  reflexivity.
Qed.

Section MoreRounds.
Context `{Collaborators}.
Hypothesis randint_range : ∀ lo hi g, lo ≤ hi → lo ≤ (randint lo hi g).1 ≤ hi.

Lemma due_counters_cons (p : Player) (ps : list Player) :
  due_counters (p :: ps) = (if due p then [total_turns p] else []) ++ due_counters ps.
Proof. unfold due_counters. cbn [List.filter]. by destruct (due p). Qed.

Lemma bookkeeping_moving (self : Player) (t : Z) :
  phase self = "moving" →
  phase (bookkeeping self t) = "moving" ∧ total_turns (bookkeeping self t) = t.
Proof. intros Hp. unfold bookkeeping. simpl. by rewrite Hp. Qed.

Lemma due_moving (p : Player) :
  phase p = "moving" → due p = threshold (total_turns p).
Proof. intros Hp. unfold due, moving. by rewrite Hp. Qed.

Lemma states_boards (self : Player) (calls : list Call) :
  board <$> List.filter due (states self calls)
    = replicate (length (due_counters (states self calls))) (board self).
Proof.
  unfold due_counters. rewrite length_fmap.
  revert self. induction calls as [| c rest IH]; intros self; [done |].
  simpl states. cbn [List.filter].
  specialize (IH (after_call self c)). rewrite after_call_board in IH.
  destruct (due (after_call self c)); [| exact IH].
  rewrite fmap_cons, IH, after_call_board. done.
Qed.

Lemma rounds_first_counters (replies : list (option Reply)) (self : Player) (t : Z) :
  phase self = "moving" →
  due_counters (states self (rounds_first t replies))
    = List.filter threshold (seqZ t (2 * Z.of_nat (length replies))).
Proof.
  revert self t. induction replies as [| a rest IH]; intros self t Hp; [done |].
  destruct (bookkeeping_moving self t Hp) as [Hp1 Ht1].
  cbn [rounds_first states after_call]. rewrite !due_counters_cons.
  rewrite (due_moving _ Hp1), Ht1.
  rewrite (due_moving (set_total_turns (bookkeeping self t) _)) by done.
  cbn [total_turns set_total_turns].
  rewrite IH by done.
  replace (2 * Z.of_nat (length (a :: rest)))
    with (1 + (1 + 2 * Z.of_nat (length rest))) by (simpl length; lia).
  rewrite (seqZ_app t 1) by lia. rewrite (seqZ_app (t + 1) 1) by lia.
  rewrite !List.filter_app. replace (t + 1 + 1) with (t + 2) by lia.
  change (seqZ t 1) with [t]. change (seqZ (t + 1) 1) with [t + 1].
  cbn [List.filter]. done.
Qed.

(** X16: a player in the moving phase that moves first in each round, called
    with [action(t)], [update], [action(t+2)], [update] and so on, sees the
    consecutive counter values from [t] on and shrinks its board once for each
    of 127 and 191 among them: exactly twice, at 127 and then at 191, when
    the rounds start at or before 127 and run past 191. *)
Theorem rounds_first_shrink (self : Player) (t : Z) (replies : list (option Reply))
    (w : World) :
  phase self = "moving" →
  is_Some (heap w !! board self) →
  ∃ ps w', history self (rounds_first t replies) w = Some (ps, w') ∧
    due_counters ps = List.filter threshold (seqZ t (2 * Z.of_nat (length replies))) ∧
    shrunk w' = shrunk w ++ replicate (length (due_counters ps)) (board self) ∧
    (t ≤ 127 → 191 < t + 2 * Z.of_nat (length replies) →
       due_counters ps = [127; 191] ∧
       shrunk w' = shrunk w ++ [board self; board self]).
Proof.
  intros Hp Hv.
  destruct (history_ok randint_range self (rounds_first t replies) w Hv)
    as (w' & Hh & Hs).
  eexists _, w'. split; [exact Hh |].
  pose proof (rounds_first_counters replies self t Hp) as Hd.
  split; [exact Hd |]. rewrite states_boards in Hs. split; [exact Hs |].
  intros Ht Hlen. rewrite Hs, Hd, filter_threshold_seqZ by lia. done.
Qed.

Lemma rounds_second_counters (replies : list (option Reply)) (self : Player) (t : Z) :
  phase self = "moving" →
  replies ≠ [] →
  due_counters (states self (rounds_second t replies))
    = List.filter threshold
        ((total_turns self + 1) :: seqZ t (2 * Z.of_nat (length replies) - 1)).
Proof.
  revert self t. induction replies as [| a rest IH]; intros self t Hp Hne; [done |].
  set (s1 := set_total_turns self (total_turns self + 1)).
  assert (Hp1 : phase s1 = "moving") by done.
  destruct (bookkeeping_moving s1 t Hp1) as [Hp2 Ht2].
  cbn [rounds_second states after_call]. fold s1. rewrite !due_counters_cons.
  rewrite (due_moving _ Hp1), (due_moving _ Hp2), Ht2.
  cbn [List.filter]. change (total_turns s1) with (total_turns self + 1).
  destruct rest as [| a' rest'].
  - change (2 * Z.of_nat (length [a]) - 1) with 1.
    change (seqZ t 1) with [t]. cbn [List.filter rounds_second states].
    change (due_counters []) with (@nil Z). rewrite app_nil_r.
    by destruct (threshold (total_turns self + 1)), (threshold t).
  - rewrite IH by done. rewrite Ht2. cbn [List.filter].
    replace (2 * Z.of_nat (length (a :: a' :: rest')) - 1)
      with (1 + (1 + (2 * Z.of_nat (length (a' :: rest')) - 1)))
      by (simpl length; lia).
    rewrite (seqZ_app t 1) by (simpl length; lia).
    rewrite (seqZ_app (t + 1) 1) by (simpl length; lia).
    replace (t + 1 + 1) with (t + 2) by lia.
    change (seqZ t 1) with [t]. change (seqZ (t + 1) 1) with [t + 1].
    rewrite !List.filter_app. cbn [List.filter app].
    by destruct (threshold (total_turns self + 1)), (threshold t), (threshold (t + 1)).
Qed.

(** X17: a player in the moving phase that moves second in each round, called
    with [update], [action(t)], [update], [action(t+2)] and so on, sees its
    old counter plus one and then the consecutive values from [t] on.  When
    the first of these is no threshold, the rounds start at or before 127 and
    run past 191, it shrinks its board exactly twice, at 127 and then at
    191. *)
Theorem rounds_second_shrink (self : Player) (t : Z) (replies : list (option Reply))
    (w : World) :
  phase self = "moving" →
  is_Some (heap w !! board self) →
  threshold (total_turns self + 1) = false →
  t ≤ 127 → 191 < t + 2 * Z.of_nat (length replies) - 1 →
  ∃ ps w', history self (rounds_second t replies) w = Some (ps, w') ∧
    due_counters ps = [127; 191] ∧
    shrunk w' = shrunk w ++ [board self; board self].
Proof.
  intros Hp Hv Hc Ht Hlen.
  destruct (history_ok randint_range self (rounds_second t replies) w Hv)
    as (w' & Hh & Hs).
  eexists _, w'. split; [exact Hh |].
  assert (Hne : replies ≠ []) by (intros ->; simpl in Hlen; lia).
  pose proof (rounds_second_counters replies self t Hp Hne) as Hd.
  cbn [List.filter] in Hd. rewrite Hc, filter_threshold_seqZ in Hd by lia.
  split; [exact Hd |]. rewrite states_boards, Hd in Hs. exact Hs.
Qed.

End MoreRounds.

(** ** The further properties on concrete positions and games *)

Import MoreSamples.

Lemma find_tiles_of_rank_ring_witness :
  (∃ l, find_tiles_of_rank 2 = Some l ∧ (2, 5) ∈ l) ↔
  (in_grid (2, 5) ∧ ((2, 5) ∉ corner_cells) ∧ ring_of (2, 5) = 2).
Proof. apply (find_tiles_of_rank_ring 2 (2, 5)). lia. Defined.

Lemma move_towards_centre_result_witness :
  ∃ res, move_towards_centre 0 1 1 "@" (Model.world_of blocked_board)
           = Some (res, Model.world_of blocked_board) ∧
    (∀ d, res = Some d →
       is_Some (Move_new blocked_board 1 1 d.1 d.2) ∧
       Z.abs (d.1 - 1) + Z.abs (d.2 - 1) = 1 ∧
       dist2 d < dist2 (1, 1) ∧
       (in_grid (1, 1) → in_grid d) ∧
       (1 < 3 ∨ 5 < 1 → d.2 = 1)) ∧
    (in_block (1, 1) → res = None) ∧
    (res = None → ¬ in_block (1, 1) →
       ∃ d, centre_step 1 1 = Some d ∧ Move_new blocked_board 1 1 d.1 d.2 = None).
Proof.
  apply (move_towards_centre_result (Model.world_of blocked_board) 0 blocked_board 1 1 "@").
  reflexivity.
Defined.

Lemma check_move_for_elimination_effects_witness :
  ∃ v,
    (∀ player, check_move_for_elimination 0 "@" player flank_move (Model.world_of flank_board) =
       Some (v, World_mk (heap (Model.world_of flank_board) ++ [simulated flank_board "@" flank_move])
                  (gen (Model.world_of flank_board)) (shrunk (Model.world_of flank_board)))) ∧
    (v = false ↔ count (simulated flank_board "@" flank_move) (search_key "@")
                   = count flank_board (search_key "@")).
Proof.
  apply (check_move_for_elimination_effects (Model.world_of flank_board) 0 flank_board
           "@" flank_move).
  reflexivity.
Defined.

Lemma evalutate_this_move_value_witness :
  evalutate_this_move 0 "@" "O" flank_move (Model.world_of flank_board) =
    Some (Z.of_nat (count (simulated flank_board "@" flank_move) "O")
            - Z.of_nat (count flank_board (search_key "@")),
          World_mk (heap (Model.world_of flank_board) ++ [simulated flank_board "@" flank_move])
            (gen (Model.world_of flank_board)) (shrunk (Model.world_of flank_board))) ∧
  ∀ m', count (simulated flank_board "@" m') "O"
          = count (simulated flank_board "@" flank_move) "O" →
        fst <$> evalutate_this_move 0 "@" "O" m' (Model.world_of flank_board)
          = fst <$> evalutate_this_move 0 "@" "O" flank_move (Model.world_of flank_board).
Proof.
  apply (evalutate_this_move_value (Model.world_of flank_board) 0 flank_board
           "@" "O" flank_move).
  reflexivity.
Defined.

Lemma do_random_move_draw_witness :
  (generate_moves lone_board (acting_colour "@") = [] →
     do_random_move 0 "@" (Model.world_of lone_board) = Some (None, Model.world_of lone_board)) ∧
  (generate_moves lone_board (acting_colour "@") ≠ [] →
     ∃ m,
       generate_moves lone_board (acting_colour "@")
         !! Z.to_nat (randint 0 (Z.of_nat (length (generate_moves lone_board (acting_colour "@"))) - 1)
                        (gen (Model.world_of lone_board))).1 = Some m ∧
       do_random_move 0 "@" (Model.world_of lone_board) =
         Some (Some (Action_new lone_board "@" None (Some m)),
               World_mk (heap (Model.world_of lone_board))
                 (randint 0 (Z.of_nat (length (generate_moves lone_board (acting_colour "@"))) - 1)
                    (gen (Model.world_of lone_board))).2
                 (shrunk (Model.world_of lone_board)))).
Proof.
  apply (@do_random_move_draw Model.collaborators model_randint_range
           (Model.world_of lone_board) 0 lone_board "@").
  reflexivity.
Defined.

Lemma generate_move_list_witness :
  ∃ moves, generate_move 0 "@" (Model.world_of lone_board)
             = Some (moves, Model.world_of lone_board) ∧
    ("@" = "@" → moves = generate_moves lone_board "W") ∧
    ("@" ≠ "@" → moves = generate_moves lone_board "B") ∧
    (fst <$> do_random_move 0 "@" (Model.world_of lone_board) = Some None ↔ moves = []).
Proof.
  apply (@generate_move_list Model.collaborators model_randint_range
           (Model.world_of lone_board) 0 lone_board "@").
  reflexivity.
Defined.

Lemma check_easy_elimination_shape_witness :
  ∃ l w', check_easy_elimination 0 "@" "O" (Model.world_of flank_board) = Some (l, w') ∧
    heap w' !! 0%nat = Some flank_board ∧
    shrunk w' = shrunk (Model.world_of flank_board) ∧
    (l = [] ↔ generate_moves flank_board (acting_colour "@") = []) ∧
    (generate_moves flank_board (acting_colour "@") ≠ [] →
       ∃ m, m ∈ generate_moves flank_board (acting_colour "@") ∧
         ((∃ (x : Move) (i : nat),
             generate_moves flank_board (acting_colour "@") !! i = Some x ∧
             eliminates flank_board "@" x = true ∧
             (∀ (j : nat) (y : Move), (j < i)%nat →
                generate_moves flank_board (acting_colour "@") !! j = Some y →
                eliminates flank_board "@" y = false) ∧
             l = [Some x; first_offer flank_board "O" scan_order; Some m]) ∨
          ((∀ y, y ∈ generate_moves flank_board (acting_colour "@") →
                 eliminates flank_board "@" y = false) ∧
           l = [first_offer flank_board "O" scan_order; Some m]))).
Proof.
  apply (@check_easy_elimination_shape Model.collaborators model_randint_range
           (Model.world_of flank_board) 0 flank_board "@" "O").
  reflexivity.
Defined.

Lemma action_effect_witness :
  action white_moving 2 (Model.world_of lone_board) =
    Some ((bookkeeping white_moving 2,
           return_action <$> (chosen white_moving lone_board (gen (Model.world_of lone_board))).1),
          World_mk
            (<[board white_moving := settle (bookkeeping white_moving 2)
                 (modify lone_board
                    (chosen white_moving lone_board (gen (Model.world_of lone_board))).1
                    (enemy white_moving))]> (heap (Model.world_of lone_board)))
            (chosen white_moving lone_board (gen (Model.world_of lone_board))).2
            (shrunk (Model.world_of lone_board) ++
               (if due (bookkeeping white_moving 2) then [board white_moving] else []))).
Proof.
  apply (@action_effect Model.collaborators model_randint_range white_moving 2
           (Model.world_of lone_board) lone_board).
  reflexivity.
Defined.

Lemma update_effect_witness :
  @update Model.collaborators white_moving (Some (Model.Place 4 4))
    (Model.world_of lone_board) =
    Some (set_total_turns white_moving (total_turns white_moving + 1),
          World_mk
            (<[board white_moving :=
                 settle (set_total_turns white_moving (total_turns white_moving + 1))
                   (modify lone_board
                      (Some (@Action_new Model.collaborators lone_board
                               (piece white_moving) (Some (Model.Place 4 4)) None))
                      (piece white_moving))]> (heap (Model.world_of lone_board)))
            (gen (Model.world_of lone_board))
            (shrunk (Model.world_of lone_board) ++
               (if due (set_total_turns white_moving (total_turns white_moving + 1))
                then [board white_moving] else []))).
Proof.
  apply (@update_effect Model.collaborators white_moving (Some (Model.Place 4 4))
           (Model.world_of lone_board) lone_board).
  reflexivity.
Defined.

Lemma calls_touch_own_board_only_witness :
  ∃ ps w', history white_moving one_round two_boards = Some (ps, w') ∧
    length (heap w') = 2%nat ∧
    heap w' !! 1%nat = Some flank_board ∧
    (∀ p, p ∈ ps → enemy p = "@" ∧ piece p = "O" ∧ board p = 0%nat).
Proof.
  destruct (@calls_touch_own_board_only Model.collaborators model_randint_range
              white_moving one_round two_boards)
    as (ps & w' & Hh & Hl & Hr & Hid); [by eexists |].
  exists ps, w'. split; [exact Hh |]. split; [exact Hl |].
  split; [| exact Hid]. by rewrite Hr.
Defined.

Lemma placing_never_shrinks_witness :
  ∃ ps w', game "white" eleven_each Model.empty_world = Some (ps, w') ∧
    shrunk w' = shrunk Model.empty_world ∧
    ∀ p, p ∈ ps → phase p = "placing".
Proof.
  apply (@placing_never_shrinks Model.collaborators model_randint_range "white"
           eleven_each Model.empty_world).
  vm_compute. reflexivity.
Defined.

Lemma switch_discards_turns_witness :
  ∃ ps p w', game "white" (eleven_each ++ [CallAction 127]) Model.empty_world
               = Some (ps, w') ∧
    last ps = Some p ∧
    phase p = "moving" ∧ total_turns p = 0 ∧ total_actions p = 12 ∧
    shrunk w' = shrunk Model.empty_world.
Proof.
  apply (@switch_discards_turns Model.collaborators model_randint_range "white"
           eleven_each 127 Model.empty_world).
  vm_compute. reflexivity.
Defined.

Lemma rounds_first_shrink_witness :
  ∃ ps w', history white_moving (rounds_first 126 (forfeits 33))
             (Model.world_of lone_board) = Some (ps, w') ∧
    due_counters ps = [127; 191] ∧
    shrunk w' = [0%nat; 0%nat].
Proof.
  destruct (@rounds_first_shrink Model.collaborators model_randint_range
              white_moving 126 (forfeits 33) (Model.world_of lone_board))
    as (ps & w' & Hh & _ & _ & Htwice); [reflexivity | by eexists |].
  exists ps, w'. split; [exact Hh |].
  apply Htwice; [lia | vm_compute; reflexivity].
Defined.

Lemma rounds_second_shrink_witness :
  ∃ ps w', history black_moving (rounds_second 1 (forfeits 96))
             (Model.world_of lone_board) = Some (ps, w') ∧
    due_counters ps = [127; 191] ∧
    shrunk w' = shrunk (Model.world_of lone_board) ++ [board black_moving; board black_moving].
Proof.
  apply (@rounds_second_shrink Model.collaborators model_randint_range
           black_moving 1 (forfeits 96) (Model.world_of lone_board));
    [reflexivity | by eexists | reflexivity | lia | vm_compute; reflexivity].
Defined.
